(** * gd.memory: typed access to the memory of a foreign process

    A shallow embedding of [gd/memory/utils.py], [gd/memory/fields.py] and
    [gd/memory/string.py].  Python integers are [Z]; a raised exception is a
    [Raise] result; the memory port ([AbstractState]) is a record holding the
    bytes of the target process and the log of the port calls made so far. *)

From Stdlib Require Import ZArith List Bool Lia String.
From coqutil Require Import Byte Word.LittleEndianList.
Import ListNotations.
Local Open Scope Z_scope.

(** ** Exceptions and results *)

Inductive exn : Type :=
| ValueError (message : string)
| TypeError (message : string)
| KeyError (key : Z)
| NameError (name : string)
| UnicodeEncodeError
| UnicodeDecodeError.

Inductive result (A : Type) : Type :=
| Ok (a : A)
| Raise (e : exn).

Arguments Ok {A} a.
Arguments Raise {A} e.

Definition rbind {A B} (r : result A) (k : A -> result B) : result B :=
  match r with
  | Ok a => k a
  | Raise e => Raise e
  end.

Definition rmap {A B} (f : A -> B) (r : result A) : result B :=
  rbind r (fun a => Ok (f a)).

Declare Scope result_scope.
Delimit Scope result_scope with res.
Notation "'let?' x ':=' r 'in' k" := (rbind r (fun x => k))
  (at level 10, x name, r at level 100, k at level 200) : result_scope.
Notation "'let?' ' p ':=' r 'in' k" :=
  (rbind r (fun x => match x with p => k end))
  (at level 10, p pattern, r at level 100, k at level 200) : result_scope.
Local Open Scope result_scope.

(** ** gd.platform *)

(** Modelled from the spec: the OS family of the target ([gd.enums.Platform]
    is not part of the sources at hand); [is_windows] holds of the Windows
    family only. *)
Inductive Platform : Type := UNKNOWN | ANDROID | DARWIN | LINUX | WINDOWS.

Definition is_windows (p : Platform) : bool :=
  match p with
  | WINDOWS => true
  | _ => false
  end.

(** [PlatformConfig]: the code reads [config.bits] as an integer (it is
    compared with [32] and used as a dictionary key) and [config.platform]. *)
Record PlatformConfig : Type := mkConfig {
  bits : Z;
  platform : Platform
}.

(** ** gd.binary_constants *)

(** Modelled from the spec: the byte widths of the fixed-width kinds
    ([I32] is 4 bytes always, and so on); [gd/binary_constants.py] is not
    part of the sources at hand. *)
Definition I8_SIZE : Z := 1.
Definition U8_SIZE : Z := 1.
Definition I16_SIZE : Z := 2.
Definition U16_SIZE : Z := 2.
Definition I32_SIZE : Z := 4.
Definition U32_SIZE : Z := 4.
Definition I64_SIZE : Z := 8.
Definition U64_SIZE : Z := 8.
Definition F32_SIZE : Z := 4.
Definition F64_SIZE : Z := 8.

(** ** gd.memory.utils *)

Module utils.

(** [math.log2] works on C doubles: CPython first converts the [int]
    argument to the nearest double (53 significant bits, ties to the even
    significand); an argument beyond the range of a double is scaled first,
    and the value whose logarithm is taken is again the argument rounded to
    53 bits.  That value is an integer. *)
Definition DBL_MANT_DIG : Z := 53.

Definition float_of_int (n : Z) : Z :=
  let dropped := Z.log2 n + 1 - DBL_MANT_DIG in
  if dropped <=? 0 then n
  else
    let q := Z.shiftr n dropped in
    let r := Z.land n (Z.ones dropped) in
    let half := Z.shiftl 1 (dropped - 1) in
    let q' := if (half <? r) || ((r =? half) && Z.odd q) then q + 1 else q in
    Z.shiftl q' dropped.

(** [ceil(log2(value))].  [log2] raises [ValueError] ("math domain error")
    on an argument that is not positive.  The logarithm of the double is
    taken as a real number here, and [math.ceil] gives back an [int].  The
    [log2] of the C library rounds its result to a double in turn.  That
    makes no difference at a double that is a power of two, whose logarithm
    is an integer, nor for [value <= 2^47], where the conversion is exact
    and the logarithm of a value that is no power of two lies more than one
    unit in the last place above the integer below it.  In between (from
    [2^49 + 1] on with a correctly rounding library) the library may return
    the integer below where this definition rounds up; the statements of
    this file stay on the arguments where the two agree. *)
Definition closest_power_of_two_bits (value : Z) : result Z :=
  if value <=? 0 then Raise (ValueError "math domain error")
  else Ok (Z.log2_up (float_of_int value)).

Definition closest_power_of_two (value : Z) : result Z :=
  let? b := closest_power_of_two_bits value in
  Ok (Z.shiftl 1 b).

End utils.

(** ** gd.memory.fields: field descriptors *)

Inductive ByteOrder : Type := NATIVE | LITTLE | BIG.

(** The scalar subclasses of [Field]. *)
Inductive Scalar : Type :=
| I8 | U8 | I16 | U16 | I32 | U32 | I64 | U64 | ISize | USize | F32 | F64
| Byte | UByte | Short | UShort | Int | UInt | Long | ULong
| LongLong | ULongLong | Size | Float | Double.

(** A [Field] carries its [offset]; an [ArrayField] also its element
    descriptor ([type]) and its optional [length]. *)
Inductive Field : Type :=
| ScalarField (kind : Scalar) (offset : Z)
| ArrayField (type : Field) (length : option Z) (offset : Z).

Definition DEFAULT_OFFSET : Z := 0.
Definition UNSIZED_ARRAY : string := "array is unsized".

(** A Python [dict] literal with integer keys, and [d[key]]. *)
Fixpoint dict_get (d : list (Z * Z)) (key : Z) : result Z :=
  match d with
  | [] => Raise (KeyError key)
  | (k, v) :: d' => if k =? key then Ok v else dict_get d' key
  end.

Definition scalar_compute_size (kind : Scalar) (config : PlatformConfig) : result Z :=
  match kind with
  | I8 => Ok I8_SIZE
  | U8 => Ok U8_SIZE
  | I16 => Ok I16_SIZE
  | U16 => Ok U16_SIZE
  | I32 => Ok I32_SIZE
  | U32 => Ok U32_SIZE
  | I64 => Ok I64_SIZE
  | U64 => Ok U64_SIZE
  | ISize =>
      let size := [(8, I8_SIZE); (16, I16_SIZE); (32, I32_SIZE); (64, I64_SIZE)] in
      dict_get size (bits config)
  | USize =>
      let size := [(8, U8_SIZE); (16, U16_SIZE); (32, U32_SIZE); (64, U64_SIZE)] in
      dict_get size (bits config)
  | F32 => Ok F32_SIZE
  | F64 => Ok F64_SIZE
  | Byte => Ok I8_SIZE
  | UByte => Ok U8_SIZE
  | Short => Ok I16_SIZE
  | UShort => Ok U16_SIZE
  | Int => if bits config <? 32 then Ok I16_SIZE else Ok I32_SIZE
  | UInt => if bits config <? 32 then Ok U16_SIZE else Ok U32_SIZE
  | Long =>
      if (32 <? bits config) && negb (is_windows (platform config))
      then Ok I64_SIZE else Ok I32_SIZE
  | ULong =>
      if (32 <? bits config) && negb (is_windows (platform config))
      then Ok U64_SIZE else Ok U32_SIZE
  | LongLong => Ok I64_SIZE
  | ULongLong => Ok U64_SIZE
  | Size =>
      let size := [(8, I8_SIZE); (16, I16_SIZE); (32, I32_SIZE); (64, I64_SIZE)] in
      dict_get size (bits config)
  | Float => Ok F32_SIZE
  | Double => Ok F64_SIZE
  end.

Definition scalar_compute_alignment (kind : Scalar) (config : PlatformConfig) : result Z :=
  match kind with
  | I8 => Ok I8_SIZE
  | U8 => Ok U8_SIZE
  | I16 => Ok I16_SIZE
  | U16 => Ok U16_SIZE
  | I32 => Ok I32_SIZE
  | U32 => Ok U32_SIZE
  | I64 => Ok I64_SIZE
  | U64 => Ok U64_SIZE
  | ISize =>
      let alignment := [(8, I8_SIZE); (16, I16_SIZE); (32, I32_SIZE); (64, I64_SIZE)] in
      dict_get alignment (bits config)
  | USize =>
      let alignment := [(8, U8_SIZE); (16, U16_SIZE); (32, U32_SIZE); (64, U64_SIZE)] in
      dict_get alignment (bits config)
  | F32 => Ok F32_SIZE
  | F64 => Ok F64_SIZE
  | Byte => Ok I8_SIZE
  | UByte => Ok U8_SIZE
  | Short => Ok I16_SIZE
  | UShort => Ok U16_SIZE
  | Int => if bits config <? 32 then Ok I16_SIZE else Ok I32_SIZE
  | UInt => if bits config <? 32 then Ok U16_SIZE else Ok U32_SIZE
  | Long =>
      if (32 <? bits config) && negb (is_windows (platform config))
      then Ok I64_SIZE else Ok I32_SIZE
  | ULong =>
      if (32 <? bits config) && negb (is_windows (platform config))
      then Ok U64_SIZE else Ok U32_SIZE
  | LongLong => Ok I64_SIZE
  | ULongLong => Ok U64_SIZE
  | Size =>
      let size := [(8, I8_SIZE); (16, I16_SIZE); (32, I32_SIZE); (64, I64_SIZE)] in
      dict_get size (bits config)
  | Float => Ok F32_SIZE
  | Double => Ok F64_SIZE
  end.

(** [compute_size]: an [ArrayField] with no length raises
    [TypeError(UNSIZED_ARRAY)] before its element is looked at. *)
Fixpoint compute_size (self : Field) (config : PlatformConfig) : result Z :=
  match self with
  | ScalarField kind _ => scalar_compute_size kind config
  | ArrayField type length _ =>
      match length with
      | None => Raise (TypeError UNSIZED_ARRAY)
      | Some length =>
          let? size := compute_size type config in
          Ok (size * length)
      end
  end.

Fixpoint compute_alignment (self : Field) (config : PlatformConfig) : result Z :=
  match self with
  | ScalarField kind _ => scalar_compute_alignment kind config
  | ArrayField type _ _ => compute_alignment type config
  end.

(** ** gd.memory.state: the memory port *)

Definition bytes : Type := list byte.

(** The calls a program makes on the port, oldest first in the log. *)
Inductive Call : Type :=
| ReadAt (address size : Z)
| WriteAt (address : Z) (data : bytes)
| Allocate (size address : Z).

(** Modelled from the spec: [AbstractState], the byte-level memory port
    ([gd/memory/state.py] is not part of the sources at hand): raw reads and
    writes of bytes at an address, a typed read and write per primitive kind
    with an explicit byte order, and [allocate(size)] giving the address of
    a block reserved by the target.  The state holds the platform
    configuration, the byte order [NATIVE] stands for, the bytes of the
    target, the addresses of the blocks the target's allocator hands out
    (in the order of the requests to come) and the log of calls.  Every
    address is backed: the port's own I/O failures are not modelled. *)
Record State : Type := mkState {
  config : PlatformConfig;
  native_big : bool;
  memory : Z -> byte;
  blocks : nat -> Z;
  calls : list Call
}.

Definition log (c : Call) (s : State) : State :=
  mkState (config s) (native_big s) (memory s) (blocks s) (calls s ++ [c]).

Definition load (m : Z -> byte) (address : Z) (n : nat) : bytes :=
  map (fun i => m (address + Z.of_nat i)) (seq 0 n).

Definition store (m : Z -> byte) (address : Z) (data : bytes) : Z -> byte :=
  fun a =>
    if (address <=? a) && (a <? address + Z.of_nat (List.length data))
    then nth (Z.to_nat (a - address)) data (m a)
    else m a.

Definition read_at (s : State) (address size : Z) : bytes * State :=
  (load (memory s) address (Z.to_nat size), log (ReadAt address size) s).

Definition write_at (s : State) (address : Z) (data : bytes) : State :=
  log (WriteAt address data)
    (mkState (config s) (native_big s) (store (memory s) address data)
       (blocks s) (calls s)).

(** The block the next [allocate] call gets. *)
Definition next_block (s : State) : Z := blocks s 0%nat.

Definition allocate (s : State) (size : Z) : Z * State :=
  let address := next_block s in
  (address,
   log (Allocate size address)
     (mkState (config s) (native_big s) (memory s)
        (fun i => blocks s (S i)) (calls s))).

(** The sizes requested by the [allocate] calls of a log, oldest first. *)
Definition allocations (l : list Call) : list Z :=
  flat_map (fun c => match c with Allocate size _ => [size] | _ => [] end) l.

Definition is_big (s : State) (order : ByteOrder) : bool :=
  match order with
  | NATIVE => native_big s
  | LITTLE => false
  | BIG => true
  end.

Definition to_bytes (big : bool) (size : Z) (value : Z) : bytes :=
  let l := le_split (Z.to_nat size) value in
  if big then rev l else l.

Definition from_bytes (big : bool) (data : bytes) : Z :=
  le_combine (if big then rev data else data).

Definition to_signed (size : Z) (u : Z) : Z :=
  if u <? 2 ^ (8 * size - 1) then u else u - 2 ^ (8 * size).

Inductive Signedness : Type := Signed | Unsigned | Floating.

Definition signedness (kind : Scalar) : Signedness :=
  match kind with
  | I8 | I16 | I32 | I64 | ISize | Byte | Short | Int | Long | LongLong => Signed
  | U8 | U16 | U32 | U64 | USize | UByte | UShort | UInt | ULong | ULongLong
  | Size => Unsigned
  | F32 | F64 | Float | Double => Floating
  end.

(** [state.read_<kind>(address, order)]: the bytes of the kind's width, read
    in the given order; two's complement for the signed kinds.  A float
    travels as the bit pattern of its encoding. *)
Definition state_read (kind : Scalar) (s : State) (address : Z) (order : ByteOrder)
  : result (Z * State) :=
  let? size := scalar_compute_size kind (config s) in
  let '(data, s') := read_at s address size in
  let u := from_bytes (is_big s order) data in
  Ok (match signedness kind with Signed => to_signed size u | _ => u end, s').

(** What a typed read gives, the log left aside. *)
Definition peek (kind : Scalar) (s : State) (address : Z) (order : ByteOrder)
  : result Z :=
  rmap fst (state_read kind s address order).

(** [state.write_<kind>(address, value, order)]: the bytes of a value the
    kind holds.  Of a value the kind does not hold the low bytes are kept
    here, where a port may refuse the value and raise; the effects of a
    write are stated below for values that fit only. *)
Definition state_write (kind : Scalar) (s : State) (address : Z) (value : Z)
  (order : ByteOrder) : result State :=
  let? size := scalar_compute_size kind (config s) in
  Ok (write_at s address (to_bytes (is_big s order) size value)).

(** ** gd.memory.fields: reading and writing through a descriptor *)

(** The [Array] proxy an [ArrayField] reads as: a view bound to an address,
    nothing is read when it is made. *)
Record Array : Type := mkArray {
  array_address : Z;
  array_type : Field;
  array_length : option Z;
  array_order : ByteOrder
}.

Inductive value : Type :=
| VNumber (z : Z)
| VArray (a : Array).

Definition read (self : Field) (s : State) (address : Z) (order : ByteOrder)
  : result (value * State) :=
  match self with
  | ScalarField kind _ =>
      let? '(z, s') := state_read kind s address order in
      Ok (VNumber z, s')
  | ArrayField type length _ => Ok (VArray (mkArray address type length order), s)
  end.

Definition write (self : Field) (s : State) (address : Z) (v : value)
  (order : ByteOrder) : result State :=
  match self with
  | ScalarField kind _ =>
      match v with
      | VNumber z => state_write kind s address z order
      | VArray _ => Raise (TypeError "a number is required")
      end
  | ArrayField _ _ _ => Ok s  (* pass: do nothing *)
  end.

(** ** Python [str], [str.encode] and [bytes.decode] *)

(** A [str] is its sequence of code points; [encode] and [decode] are the
    strict UTF-8 codec, the default of both methods. *)
Definition str : Type := list Z.

Definition encode_char (c : Z) : option (list Z) :=
  if c <? 0 then None
  else if c <? 0x80 then Some [c]
  else if c <? 0x800 then Some [0xC0 + c / 64; 0x80 + c mod 64]
  else if (0xD800 <=? c) && (c <=? 0xDFFF) then None
  else if c <? 0x10000 then
    Some [0xE0 + c / 4096; 0x80 + (c / 64) mod 64; 0x80 + c mod 64]
  else if c <? 0x110000 then
    Some [0xF0 + c / 262144; 0x80 + (c / 4096) mod 64; 0x80 + (c / 64) mod 64;
          0x80 + c mod 64]
  else None.

Fixpoint encode (text : str) : result bytes :=
  match text with
  | [] => Ok []
  | c :: text' =>
      match encode_char c with
      | None => Raise UnicodeEncodeError
      | Some l =>
          let? data := encode text' in
          Ok (map byte.of_Z l ++ data)
      end
  end.

Definition continuation (b : Z) : bool := (0x80 <=? b) && (b <=? 0xBF).

Fixpoint decode_utf8 (data : list Z) : option str :=
  match data with
  | [] => Some []
  | b0 :: r0 =>
      if b0 <? 0x80 then option_map (cons b0) (decode_utf8 r0)
      else if (0xC2 <=? b0) && (b0 <=? 0xDF) then
        match r0 with
        | b1 :: r1 =>
            if continuation b1
            then option_map (cons ((b0 - 0xC0) * 64 + (b1 - 0x80))) (decode_utf8 r1)
            else None
        | _ => None
        end
      else if (0xE0 <=? b0) && (b0 <=? 0xEF) then
        match r0 with
        | b1 :: b2 :: r2 =>
            let low := if b0 =? 0xE0 then 0xA0 else 0x80 in
            let high := if b0 =? 0xED then 0x9F else 0xBF in
            if (low <=? b1) && (b1 <=? high) && continuation b2
            then option_map
                   (cons ((b0 - 0xE0) * 4096 + (b1 - 0x80) * 64 + (b2 - 0x80)))
                   (decode_utf8 r2)
            else None
        | _ => None
        end
      else if (0xF0 <=? b0) && (b0 <=? 0xF4) then
        match r0 with
        | b1 :: b2 :: b3 :: r3 =>
            let low := if b0 =? 0xF0 then 0x90 else 0x80 in
            let high := if b0 =? 0xF4 then 0x8F else 0xBF in
            if (low <=? b1) && (b1 <=? high) && continuation b2 && continuation b3
            then option_map
                   (cons ((b0 - 0xF0) * 262144 + (b1 - 0x80) * 4096
                          + (b2 - 0x80) * 64 + (b3 - 0x80)))
                   (decode_utf8 r3)
            else None
        | _ => None
        end
      else None
  end.

(** [data.decode()]: [None] stands for a raised [UnicodeDecodeError]. *)
Definition decode (data : bytes) : option str :=
  decode_utf8 (map byte.unsigned data).

Definition len {A} (l : list A) : Z := Z.of_nat (List.length l).

(** ** gd.memory.markers and gd.memory.base: what the string types use *)

(** Modelled from the spec: the markers of [gd/memory/markers.py], which is
    not part of the sources at hand: [char_t] is a one-byte element,
    [uintsize_t] and [intsize_t] the [USize] and [ISize] fields, and a
    pointer slot holds the address it points to as a [USize]. *)
Definition char_t : Field := ScalarField Byte DEFAULT_OFFSET.
Definition uintsize_t : Scalar := USize.
Definition intsize_t : Scalar := ISize.
Definition pointer_t : Scalar := USize.

(** Modelled from the spec: the layout rule of [Struct.compute_layout]
    ([gd/memory/base.py] is not part of the sources at hand): a field sits at
    the running cursor rounded up to its alignment. *)
Definition round_up (cursor alignment : Z) : Z :=
  (cursor + alignment - 1) / alignment * alignment.

(** Two ranges of addresses that do not meet. *)
Definition apart (a1 n1 a2 n2 : Z) : Prop := a1 + n1 <= a2 \/ a2 + n2 <= a1.

(** An instance of a composite type: a view at an address, read and written
    through the state in a byte order. *)
Record Base : Type := mkBase {
  address : Z;
  order : ByteOrder
}.

(** ** gd.memory.string *)

Definition NULL_BYTE : bytes := [byte.of_Z 0].

Module std_string.

Definition CONTENT_SIZE : Z := 0x10.

Definition inline_content : Field := ArrayField char_t (Some CONTENT_SIZE) DEFAULT_OFFSET.

Record Layout : Type := mkLayout {
  size : Z;
  content_size : Z;
  content_offset : Z;
  length_offset : Z;
  capacity_offset : Z
}.

(** Modelled from the spec: the layout of [std_string]: [content] is the
    union of the inline array and the pointer (size and alignment are the
    largest of the members', both members at offset 0), then [length] and
    [capacity], each a [uintsize_t]; the size of the whole is the end of the
    last field rounded up to the largest alignment. *)
Definition layout (config : PlatformConfig) : result Layout :=
  let? inline_size := compute_size inline_content config in
  let? inline_alignment := compute_alignment inline_content config in
  let? pointer_size := scalar_compute_size pointer_t config in
  let? pointer_alignment := scalar_compute_alignment pointer_t config in
  let? size := scalar_compute_size uintsize_t config in
  let? alignment := scalar_compute_alignment uintsize_t config in
  let content_size := Z.max inline_size pointer_size in
  let content_alignment := Z.max inline_alignment pointer_alignment in
  let content_offset := round_up 0 content_alignment in
  let length_offset := round_up (content_offset + content_size) alignment in
  let capacity_offset := round_up (length_offset + size) alignment in
  let total := round_up (capacity_offset + size) (Z.max content_alignment alignment) in
  Ok (mkLayout total content_size content_offset length_offset capacity_offset).

(** Modelled from the spec: [Array.write] of the proxy bound to an address
    ([gd/memory/array.py] is not part of the sources at hand) writes the
    items in place, element by element; for one-byte elements this is the
    byte string at the address. *)
Definition array_write (s : State) (address : Z) (data : bytes) : State :=
  write_at s address data.

Definition get_value (self : Base) (s : State) : result (str * State) :=
  let? l := layout (config s) in
  let content := address self + content_offset l in
  let? '(capacity, s1) :=
    state_read uintsize_t s (address self + capacity_offset l) (order self) in
  let? '(length, s2) :=
    state_read uintsize_t s1 (address self + length_offset l) (order self) in
  (* the first [try]: a decoded text is returned, a failure passes on *)
  let '(inline, s3) :=
    if capacity <? content_size l then
      let '(data, s3) := read_at s2 content length in
      (decode data, s3)
    else (None, s2) in
  match inline with
  | Some text => Ok (text, s3)
  | None =>
      let? '(pointer, s4) := state_read pointer_t s3 content (order self) in
      let '(data, s5) := read_at s4 pointer length in
      match decode data with
      | Some text => Ok (text, s5)
      | None => Raise (NameError "EMPTY_STRING")  (* the name is bound nowhere *)
      end
  end.

Definition set_value (self : Base) (value : str) (s : State) : result State :=
  let? l := layout (config s) in
  let content := address self + content_offset l in
  let? '(capacity, s1) :=
    state_read uintsize_t s (address self + capacity_offset l) (order self) in
  let? data := encode value in
  let length := len data in
  let data := data ++ NULL_BYTE in
  let size := len data in
  let? s2 := state_write uintsize_t s1 (address self + length_offset l) length (order self) in
  if capacity <? length then
    if length <? content_size l then
      let? s3 := state_write uintsize_t s2 (address self + capacity_offset l)
                   (content_size l - 1) (order self) in
      Ok (write_at s3 content data)
    else
      let? size := utils.closest_power_of_two size in
      let '(address', s3) := allocate s2 size in
      let? s4 := state_write pointer_t s3 content address' (order self) in
      let? s5 := state_write uintsize_t s4 (address self + capacity_offset l)
                   (size - 1) (order self) in
      let? '(pointer, s6) := state_read pointer_t s5 content (order self) in
      Ok (write_at s6 pointer data)
  else
    if capacity <? content_size l then Ok (array_write s2 content data)
    else
      let? '(pointer, s3) := state_read pointer_t s2 content (order self) in
      Ok (array_write s3 pointer data).

End std_string.

Module old_std_string.

(** The header of a long string, [old_std_long_string(Struct, origin=3)]:
    offsets are relative to the address of an instance. *)
Record Layout : Type := mkLayout {
  size : Z;
  capacity_offset : Z;
  length_offset : Z;
  ref_count_offset : Z;
  content_offset : Z
}.

(** Modelled from the spec: the layout of the header: [capacity], [length]
    and [ref_count] in declaration order, then the unsized [content], which
    takes no room; the origin is field 3, [content], so an instance is
    addressed at its content and the three header fields lie below it.  The
    size of the type is the size of the header. *)
Definition layout (config : PlatformConfig) : result Layout :=
  let? usize := scalar_compute_size uintsize_t config in
  let? ualign := scalar_compute_alignment uintsize_t config in
  let? isize := scalar_compute_size intsize_t config in
  let? ialign := scalar_compute_alignment intsize_t config in
  let? calign := compute_alignment char_t config in
  let capacity := round_up 0 ualign in
  let length := round_up (capacity + usize) ualign in
  let ref_count := round_up (length + usize) ialign in
  let content := round_up (ref_count + isize) calign in
  let total := round_up content (Z.max (Z.max ualign ialign) calign) in
  Ok (mkLayout total (capacity - content) (length - content)
        (ref_count - content) 0).

(** [old_std_string] has one field, [pointer], at offset 0. *)
Definition pointer_offset : Z := 0.

Definition set_value (self : Base) (value : str) (s : State) : result State :=
  let? l := layout (config s) in
  let slot := address self + pointer_offset in
  (* long_string = self.pointer.value *)
  let? '(long_string, s1) := state_read pointer_t s slot (order self) in
  let? '(ref_count, s2) :=
    state_read intsize_t s1 (long_string + ref_count_offset l) (order self) in
  let? '(capacity, s3) :=
    state_read uintsize_t s2 (long_string + capacity_offset l) (order self) in
  let? data := encode value in
  let length := len data in
  let data := data ++ NULL_BYTE in
  let size' := len data in
  let? '(long_string, s4) :=
    if capacity <? length then
      let? size' := utils.closest_power_of_two (size' + size l) in
      let '(address', s4) := allocate s3 size' in
      let? s5 := state_write pointer_t s4 slot (address' + size l) (order self) in
      let? '(long_string, s6) := state_read pointer_t s5 slot (order self) in
      let? s7 := state_write uintsize_t s6 (long_string + capacity_offset l)
                   (size' - size l - 1) (order self) in
      let? s8 := state_write intsize_t s7 (long_string + ref_count_offset l)
                   ref_count (order self) in
      Ok (long_string, s8)
    else Ok (long_string, s3) in
  let? s5 := state_write uintsize_t s4 (long_string + length_offset l) length (order self) in
  Ok (write_at s5 (long_string + content_offset l) data).

(** [get_value] hands back what [read_at] gives, the bytes themselves: no
    [decode] is called on them, so the [except UnicodeDecodeError] clause
    after it is never entered. *)
Definition get_value (self : Base) (s : State) : result (bytes * State) :=
  let? l := layout (config s) in
  let? '(long_string, s1) :=
    state_read pointer_t s (address self + pointer_offset) (order self) in
  let? '(length, s2) :=
    state_read uintsize_t s1 (long_string + length_offset l) (order self) in
  Ok (read_at s2 (long_string + content_offset l) length).

End old_std_string.

(** ** Notions the statements use *)

(** Widths the size-keyed dictionaries know. *)
Definition known_bits (config : PlatformConfig) : Prop :=
  bits config = 8 \/ bits config = 16 \/ bits config = 32 \/ bits config = 64.

(** Largest argument up to which the double arithmetic behind
    [utils.closest_power_of_two_bits] is exact. *)
Definition LOG2_EXACT_MAX : Z := 2 ^ 47.

(** [p] is the smallest power of two that is no less than [n]. *)
Definition smallest_power_of_two_from (n p : Z) : Prop :=
  (exists k, 0 <= k /\ p = 2 ^ k) /\ n <= p /\
  forall j, 0 <= j -> n <= 2 ^ j -> p <= 2 ^ j.

(** The state [std_string.set_value] leaves, branch by branch, for a string
    object whose word size is [w], whose fields hold [capacity] and
    [pointer], and a value that encodes to [data]. *)
Section Written.

Variables (self : Base) (s : State) (w capacity pointer : Z) (data : bytes).

Definition big : bool := is_big s (order self).

Definition after_length : State :=
  write_at (log (ReadAt (address self + (16 + w)) w) s) (address self + 16)
    (to_bytes big w (len data)).

Definition written : result State :=
  if capacity <? len data then
    if len data <? 16 then
      Ok (write_at
            (write_at after_length (address self + (16 + w)) (to_bytes big w 15))
            (address self + 0) (data ++ NULL_BYTE))
    else
      let? size := utils.closest_power_of_two (len data + 1) in
      Ok (write_at
            (log (ReadAt (address self + 0) w)
               (write_at
                  (write_at (snd (allocate after_length size)) (address self + 0)
                     (to_bytes big w (next_block s)))
                  (address self + (16 + w)) (to_bytes big w (size - 1))))
            (next_block s mod 2 ^ (8 * w)) (data ++ NULL_BYTE))
  else
    if capacity <? 16
    then Ok (write_at after_length (address self + 0) (data ++ NULL_BYTE))
    else Ok (write_at (log (ReadAt (address self + 0) w) after_length) pointer
               (data ++ NULL_BYTE)).

End Written.

(** ** Concrete configurations and states, to run the model *)

Definition linux64 : PlatformConfig := mkConfig 64 LINUX.
Definition windows64 : PlatformConfig := mkConfig 64 WINDOWS.
Definition linux32 : PlatformConfig := mkConfig 32 LINUX.

(** An allocator that hands out blocks 4 KiB apart from [0x10000] upwards. *)
Definition heap_blocks : nat -> Z := fun i => 0x10000 + 0x1000 * Z.of_nat i.

(** Bytes [data] at [address], [fill] everywhere else. *)
Definition bytes_at (address : Z) (data : list Z) (fill : Z) : Z -> byte :=
  store (fun _ => byte.of_Z fill) address (map byte.of_Z data).

(** A string object at [0x100] of a little-endian 32-bit target. *)
Definition sample : Base := mkBase 0x100 NATIVE.

Definition layout32 : std_string.Layout := std_string.mkLayout 24 16 0 16 20.

(** It holds "hello" inline: length 5, capacity 15. *)
Definition inline_state : State :=
  mkState linux32 false
    (store (bytes_at 0x100 [104; 101; 108; 108; 111; 0] 0) 0x110
       (map byte.of_Z [5; 0; 0; 0; 15; 0; 0; 0]))
    heap_blocks [].

(** It holds twenty letters in a 32-byte block at [0x2000]: length 20,
    capacity 31. *)
Definition heap_state : State :=
  mkState linux32 false
    (store
       (store (bytes_at 0x2000 (repeat 97 20) 0) 0x100 (map byte.of_Z [0; 0x20; 0; 0]))
       0x110 (map byte.of_Z [20; 0; 0; 0; 31; 0; 0; 0]))
    heap_blocks [].

(** Its pointer names its own length field, at [0x110]: length 20,
    capacity 31. *)
Definition aliased_state : State :=
  mkState linux32 false
    (store (store (fun _ => byte.of_Z 0) 0x100 (map byte.of_Z [0x10; 0x01; 0; 0]))
       0x110 (map byte.of_Z [20; 0; 0; 0; 31; 0; 0; 0]))
    heap_blocks [].

(** Its bytes are no text: [0xFF] all over, length 1, capacity 15. *)
Definition broken_state : State :=
  mkState linux32 false
    (store (fun _ => byte.of_Z 0xFF) 0x110 (map byte.of_Z [1; 0; 0; 0; 15; 0; 0; 0]))
    heap_blocks [].

Definition hi : str := [104; 105].
Definition sixteen : str := repeat 97 16.
Definition seventeen : str := repeat 97 17.

(** An old string at [0x100] pointing to the content at [0x20c] of a header
    at [0x200]: capacity 3, length 2, reference count 7, content "hi". *)
Definition layout32_old : old_std_string.Layout :=
  old_std_string.mkLayout 12 (-12) (-8) (-4) 0.

Definition old_state : State :=
  mkState linux32 false
    (store (bytes_at 0x200 [3; 0; 0; 0; 2; 0; 0; 0; 7; 0; 0; 0; 104; 105; 0] 0)
       0x100 (map byte.of_Z [0x0c; 2; 0; 0]))
    heap_blocks [].

Definition four : str := [104; 105; 106; 107].

(** ** gd.memory.fields: descriptors on a class *)

(** [ActualField], the descriptor object a class holds for a field.
    [__get__] is called with no instance (access on the class), with an
    instance of [Base], or with any other object; it gives the [Field]
    itself or the value read at the instance's address plus the field's
    offset. *)
Definition field_offset (f : Field) : Z :=
  match f with
  | ScalarField _ offset => offset
  | ArrayField _ _ offset => offset
  end.

Inductive Instance : Type :=
| NoInstance
| BaseInstance (b : Base)
| OtherInstance.

Inductive Got : Type :=
| GotField (f : Field)
| GotValue (v : value).

Definition ActualField_get (field : Field) (instance : Instance) (s : State)
  : result (Got * State) :=
  match instance with
  | NoInstance => Ok (GotField field, s)
  | BaseInstance b =>
      let? '(v, s') := read field s (address b + field_offset field) (order b) in
      Ok (GotValue v, s')
  | OtherInstance => Ok (GotField field, s)
  end.

Definition ActualField_set (field : Field) (instance : Base) (v : value) (s : State)
  : result State :=
  write field s (address instance + field_offset field) v (order instance).

(** A Python [dict] with string keys: the items in insertion order, every
    key once.  [d[k] = v] replaces the value of a key in place and appends a
    new key; [dict(pairs)] and [d.update(pairs)] set the items one by one. *)
Section PyDict.

Context {V : Type}.

Fixpoint setitem (d : list (string * V)) (k : string) (v : V) : list (string * V) :=
  match d with
  | [] => [(k, v)]
  | (k', v') :: d' =>
      if String.eqb k' k then (k', v) :: d' else (k', v') :: setitem d' k v
  end.

Definition update (d : list (string * V)) (items : list (string * V))
  : list (string * V) :=
  fold_left (fun d kv => setitem d (fst kv) (snd kv)) items d.

Fixpoint getitem (d : list (string * V)) (k : string) : option V :=
  match d with
  | [] => None
  | (k', v) :: d' => if String.eqb k' k then Some v else getitem d' k
  end.

Definition keys (d : list (string * V)) : list string := map fst d.

End PyDict.

(** A class, as far as [fetch_fields] looks at it: [vars(type).items()], the
    attributes of its own body in the order they were bound, each a [Field]
    or something else (a method, a constant). *)
Inductive attribute : Type :=
| AField (f : Field)
| AOther.

Record PyClass : Type := mkClass {
  class_vars : list (string * attribute)
}.

Definition own_fields (type : PyClass) : list (string * Field) :=
  flat_map (fun nv => match snd nv with
                      | AField f => [(fst nv, f)]
                      | AOther => []
                      end) (class_vars type).

(** [fetch_fields_iterator(base)], given [base.mro()] (the class first, its
    bases after it): the classes are walked in reverse. *)
Definition fetch_fields_iterator (mro : list PyClass) : list (string * Field) :=
  flat_map own_fields (rev mro).

Definition fetch_fields (mro : list PyClass) : list (string * Field) :=
  update [] (fetch_fields_iterator mro).

(** ** gd.memory.utils: the fields of a structure type *)

(** [StructureType.__new__] and [UnionType.__new__] build [_fields_] alike:
    from [get_type_hints(base)] for each class of [self.mro()], given here
    in the order of the mro, merged from the last to the first. *)
Definition collect_fields {H : Type} (mro_hints : list (list (string * H)))
  : list (string * H) :=
  fold_left update (rev mro_hints) [].

(** ** More notions the statements use *)

(** The scalar at the bottom of a descriptor, whether some array in it has
    no length, and the number of scalars it spans. *)
Fixpoint innermost (f : Field) : Scalar :=
  match f with
  | ScalarField kind _ => kind
  | ArrayField type _ _ => innermost type
  end.

Fixpoint unsized (f : Field) : bool :=
  match f with
  | ScalarField _ _ => false
  | ArrayField _ None _ => true
  | ArrayField type (Some _) _ => unsized type
  end.

Fixpoint span (f : Field) : Z :=
  match f with
  | ScalarField _ _ => 1
  | ArrayField type (Some n) _ => span type * n
  | ArrayField type None _ => span type
  end.

(** The value the last item under a key has, if any. *)
Fixpoint last_item {V : Type} (items : list (string * V)) (k : string) : option V :=
  match items with
  | [] => None
  | (k', v) :: items' =>
      match last_item items' k with
      | Some v' => Some v'
      | None => if String.eqb k' k then Some v else None
      end
  end.

(** Nothing of the target differs between two states: the same bytes, the
    same blocks to come, the same [allocate] calls made. *)
Definition same_target (s s' : State) : Prop :=
  config s' = config s /\ native_big s' = native_big s /\
  (forall a, memory s' a = memory s a) /\
  blocks s' = blocks s /\
  allocations (calls s') = allocations (calls s).

(** An address within a range. *)
Definition within (x a n : Z) : Prop := a <= x < a + n.

(** The state [old_std_string.set_value] leaves, for a target of word size
    [w] whose string points to [long_string], with [ref_count] and
    [capacity] in the header there, and a value that encodes to [data]. *)
Section OldWritten.

Variables (self : Base) (s : State) (w long_string ref_count capacity : Z)
          (data : bytes).

Definition old_reads : State :=
  log (ReadAt (long_string + -3 * w) w)
    (log (ReadAt (long_string + - w) w)
       (log (ReadAt (address self + 0) w) s)).

Definition old_written : result State :=
  if capacity <? len data then
    let? size' := utils.closest_power_of_two (len data + 1 + 3 * w) in
    let p := (next_block s + 3 * w) mod 2 ^ (8 * w) in
    Ok (write_at
          (write_at
             (write_at
                (write_at
                   (log (ReadAt (address self + 0) w)
                      (write_at (snd (allocate old_reads size')) (address self + 0)
                         (to_bytes (big self s) w (next_block s + 3 * w))))
                   (p + -3 * w) (to_bytes (big self s) w (size' - 3 * w - 1)))
                (p + - w) (to_bytes (big self s) w ref_count))
             (p + -2 * w) (to_bytes (big self s) w (len data)))
          (p + 0) (data ++ NULL_BYTE))
  else
    Ok (write_at
          (write_at old_reads (long_string + -2 * w)
             (to_bytes (big self s) w (len data)))
          (long_string + 0) (data ++ NULL_BYTE)).

End OldWritten.

(** A number a scalar kind of [size] bytes holds: two's complement for the
    signed kinds, the bit pattern for the others. *)
Definition representable (kind : Scalar) (size z : Z) : Prop :=
  match signedness kind with
  | Signed => - 2 ^ (8 * size - 1) <= z < 2 ^ (8 * size - 1)
  | _ => 0 <= z < 2 ^ (8 * size)
  end.

(** ** More concrete inputs *)

(** Three classes, base first: [Point] with fields [x] and [y], [Named]
    adding [name] and a method, [Wide] redeclaring [x] and shadowing [name]
    by something that is no field. *)
Definition Point : PyClass :=
  mkClass [("x", AField (ScalarField I32 0)); ("y", AField (ScalarField I32 4))]%string.

Definition Named : PyClass :=
  mkClass [("name", AField (ArrayField char_t (Some 8) 8)); ("describe", AOther)]%string.

Definition Wide : PyClass :=
  mkClass [("x", AField (ScalarField I64 0)); ("name", AOther);
           ("z", AField (ScalarField I64 16))]%string.

Definition wide_mro : list PyClass := [Wide; Named; Point].

(** A 2 by 3 array of [Int]. *)
Definition grid : Field :=
  ArrayField (ArrayField (ScalarField Int 0) (Some 3) 0) (Some 2) 0.

(** * Properties *)

(** ** Sizes and alignments of the scalar fields *)

(** C2.  The size of a [Long] or [ULong] field is 8 bytes exactly when the
    configuration has more than 32 bits and the platform is not Windows, and
    4 bytes exactly otherwise; so [Long] takes 8 bytes on 64-bit Linux,
    4 on 64-bit Windows and 4 on 32-bit Linux. *)
Theorem long_compute_size (config : PlatformConfig) (offset : Z) :
  let wide := 32 < bits config /\ is_windows (platform config) = false in
  (compute_size (ScalarField Long offset) config = Ok 8 <-> wide) /\
  (compute_size (ScalarField Long offset) config = Ok 4 <-> ~ wide) /\
  (compute_size (ScalarField ULong offset) config = Ok 8 <-> wide) /\
  (compute_size (ScalarField ULong offset) config = Ok 4 <-> ~ wide) /\
  compute_size (ScalarField Long offset) linux64 = Ok 8 /\
  compute_size (ScalarField Long offset) windows64 = Ok 4 /\
  compute_size (ScalarField Long offset) linux32 = Ok 4.
Proof.
  cbn [compute_size scalar_compute_size].
  destruct (Z.ltb_spec 32 (bits config)) as [Hb | Hb];
    destruct (is_windows (platform config)); cbn;
    repeat split; intros; try reflexivity; try discriminate; try lia;
    try (intros [? ?]; first [discriminate | lia]);
    try match goal with
        | H : ~ _ |- _ => exfalso; apply H; split; [lia | reflexivity]
        | H : _ /\ _ |- _ => destruct H; first [discriminate | lia]
        end.
Qed.

Lemma scalar_size_defined (config : PlatformConfig) (kind : Scalar) :
  known_bits config ->
  exists size, scalar_compute_size kind config = Ok size /\ 1 <= size <= 8.
Proof.
  unfold known_bits. intros H.
  destruct kind; cbn [scalar_compute_size];
    destruct H as [H | [H | [H | H]]]; rewrite ?H;
    destruct (is_windows (platform config)); cbn;
    (eexists; split; [reflexivity | split; discriminate]).
Qed.

(** C4.  For every configuration and every scalar kind the computed size and
    the computed alignment are the same result: the same [KeyError] when a
    size-keyed kind does not know the width, and the same number of bytes,
    between 1 and 8, on every configuration of 8, 16, 32 or 64 bits. *)
Theorem scalar_size_is_alignment (config : PlatformConfig) (kind : Scalar) (offset : Z) :
  compute_size (ScalarField kind offset) config
  = compute_alignment (ScalarField kind offset) config /\
  (known_bits config ->
   exists n, compute_size (ScalarField kind offset) config = Ok n /\
             compute_alignment (ScalarField kind offset) config = Ok n /\
             1 <= n <= 8).
Proof.
  assert (E : compute_size (ScalarField kind offset) config
              = compute_alignment (ScalarField kind offset) config)
    by (destruct kind; reflexivity).
  split; [exact E |].
  intros H. destruct (scalar_size_defined config kind H) as (n & Hn & Hr).
  exists n. rewrite <- E. cbn [compute_size]. auto.
Qed.

(** C5.  An array field with no length has no size: [compute_size] raises
    [TypeError("array is unsized")], whatever the element and the
    configuration; it is a function of the descriptor and the configuration
    alone, no state is involved.  With a length [n] it is the size of the
    element times [n] (and the element's own failure, when it has one). *)
Theorem array_compute_size (type : Field) (offset : Z) (config : PlatformConfig) :
  compute_size (ArrayField type None offset) config = Raise (TypeError UNSIZED_ARRAY) /\
  forall n : Z,
    compute_size (ArrayField type (Some n) offset) config
    = rmap (fun size => size * n) (compute_size type config) /\
    forall size, compute_size type config = Ok size ->
                 compute_size (ArrayField type (Some n) offset) config = Ok (size * n).
Proof.
  split; [reflexivity |]. intros n. split; [reflexivity |].
  intros size H. cbn [compute_size]. rewrite H. reflexivity.
Qed.

(** C9.  Writing through an array field does nothing: the state that comes
    back is the state that went in, so no call is added to the log of the
    port and no byte of the target changes. *)
Theorem array_write_is_noop (type : Field) (length : option Z) (offset : Z)
  (s : State) (address : Z) (v : value) (order : ByteOrder) :
  exists s',
    write (ArrayField type length offset) s address v order = Ok s' /\
    s' = s /\ calls s' = calls s /\ forall a, memory s' a = memory s a.
Proof.
  exists s. split; [reflexivity |]. split; [reflexivity |].
  split; [reflexivity | intros a; reflexivity].
Qed.

(** A scalar write, for contrast, is logged and changes the bytes. *)
Lemma scalar_write_logged (s : State) (address z : Z) (order : ByteOrder) :
  exists s', write (ScalarField U8 0) s address (VNumber z) order = Ok s' /\
             calls s' = calls s ++ [WriteAt address [byte.of_Z z]] /\
             memory s' address = byte.of_Z z.
Proof.
  assert (E : to_bytes (is_big s order) U8_SIZE z = [byte.of_Z z])
    by (destruct (is_big s order); reflexivity).
  eexists; split; [reflexivity |]. rewrite E. split; [reflexivity |].
  cbn. unfold store. cbn [List.length].
  rewrite Z.leb_refl, Z.sub_diag.
  destruct (Z.ltb_spec address (address + Z.of_nat 1)); [reflexivity | lia].
Qed.

(** ** closest_power_of_two *)

Lemma float_of_int_exact (n : Z) :
  0 < n < 2 ^ 53 -> utils.float_of_int n = n.
Proof.
  intros H. unfold utils.float_of_int, utils.DBL_MANT_DIG.
  assert (Z.log2 n < 53) by (apply Z.log2_lt_pow2; lia).
  destruct (Z.leb_spec (Z.log2 n + 1 - 53) 0); [reflexivity | lia].
Qed.

Lemma float_of_int_pow2 (k : Z) :
  0 <= k -> utils.float_of_int (2 ^ k) = 2 ^ k.
Proof.
  intros Hk. unfold utils.float_of_int, utils.DBL_MANT_DIG.
  rewrite Z.log2_pow2 by lia.
  destruct (Z.leb_spec (k + 1 - 53) 0) as [H | H]; [reflexivity |].
  set (d := k + 1 - 53) in *.
  assert (Hr : Z.land (2 ^ k) (Z.ones d) = 0).
  { rewrite Z.land_ones by lia.
    replace k with ((k - d) + d) by lia.
    rewrite Z.pow_add_r by lia. apply Z.mod_mul. lia. }
  rewrite Hr.
  assert (Hh : 0 < Z.shiftl 1 (d - 1)).
  { rewrite Z.shiftl_1_l. apply Z.pow_pos_nonneg; lia. }
  destruct (Z.ltb_spec (Z.shiftl 1 (d - 1)) 0); [lia |].
  destruct (Z.eqb_spec 0 (Z.shiftl 1 (d - 1))); [lia |].
  cbn [orb andb].
  rewrite Z.shiftr_div_pow2, Z.shiftl_mul_pow2 by lia.
  replace (2 ^ k) with (2 ^ (k - d) * 2 ^ d) at 1
    by (rewrite <- Z.pow_add_r by lia; f_equal; lia).
  rewrite Z.div_mul by lia.
  rewrite <- Z.pow_add_r by lia. f_equal. lia.
Qed.

Lemma log2_up_smallest (n : Z) :
  1 <= n -> smallest_power_of_two_from n (2 ^ Z.log2_up n).
Proof.
  intros Hn. unfold smallest_power_of_two_from.
  pose proof (Z.log2_up_nonneg n) as Hk.
  split; [exists (Z.log2_up n); split; [lia | reflexivity] |].
  destruct (Z.eq_dec n 1) as [-> | Hne].
  - cbn. split; [lia |]. intros j Hj _.
    change 1 with (2 ^ 0). apply Z.pow_le_mono_r; lia.
  - pose proof (Z.log2_up_spec n ltac:(lia)) as [Hlo Hhi].
    split; [exact Hhi |]. intros j Hj Hle.
    destruct (Z_lt_le_dec j (Z.log2_up n)) as [Hlt | Hge].
    + exfalso.
      assert (2 ^ j <= 2 ^ Z.pred (Z.log2_up n)) by (apply Z.pow_le_mono_r; lia).
      lia.
    + apply Z.pow_le_mono_r; lia.
Qed.

(** Within the exact range [closest_power_of_two] gives the smallest power
    of two that is no less than its argument. *)
Lemma closest_power_of_two_smallest (n : Z) :
  1 <= n <= LOG2_EXACT_MAX ->
  exists p, utils.closest_power_of_two n = Ok p /\ smallest_power_of_two_from n p.
Proof.
  unfold LOG2_EXACT_MAX. intros [Hlo Hhi].
  assert (H47 : 2 ^ 47 < 2 ^ 53) by (apply Z.pow_lt_mono_r; lia).
  unfold utils.closest_power_of_two, utils.closest_power_of_two_bits.
  destruct (Z.leb_spec n 0); [lia |].
  rewrite float_of_int_exact by lia. cbn [rbind].
  rewrite Z.shiftl_1_l. eexists; split; [reflexivity |].
  apply log2_up_smallest; lia.
Qed.

(** It is the identity on the powers of two. *)
Lemma closest_power_of_two_pow2 (k : Z) :
  0 <= k -> utils.closest_power_of_two (2 ^ k) = Ok (2 ^ k).
Proof.
  intros Hk. unfold utils.closest_power_of_two, utils.closest_power_of_two_bits.
  assert (0 < 2 ^ k) by (apply Z.pow_pos_nonneg; lia).
  destruct (Z.leb_spec (2 ^ k) 0); [lia |].
  rewrite float_of_int_pow2 by lia. cbn [rbind].
  rewrite Z.log2_up_pow2 by lia. rewrite Z.shiftl_1_l. reflexivity.
Qed.

(** One above a power of two it gives the next power, within the exact
    range. *)
Lemma closest_power_of_two_succ_pow2 (k : Z) :
  0 <= k < 47 -> utils.closest_power_of_two (2 ^ k + 1) = Ok (2 ^ (k + 1)).
Proof.
  intros Hk. unfold utils.closest_power_of_two, utils.closest_power_of_two_bits.
  assert (0 < 2 ^ k) by (apply Z.pow_pos_nonneg; lia).
  assert (2 ^ k < 2 ^ 47) by (apply Z.pow_lt_mono_r; lia).
  assert (2 ^ 47 < 2 ^ 53) by (apply Z.pow_lt_mono_r; lia).
  destruct (Z.leb_spec (2 ^ k + 1) 0); [lia |].
  rewrite float_of_int_exact by lia. cbn [rbind].
  rewrite Z.shiftl_1_l. do 2 f_equal.
  apply Z.log2_up_unique; [lia |].
  replace (Z.pred (k + 1)) with k by lia.
  replace (k + 1) with (Z.succ k) by lia.
  rewrite Z.pow_succ_r by lia. lia.
Qed.

(** C8.  Above the precision of a double the function falls short:
    [2^53 + 1] converts to the double [2^53], whose logarithm is [53], and
    the power of two that comes back, [2^53], is below the argument, where
    the smallest power of two from the argument on is [2^54]. *)
Theorem closest_power_of_two_beyond_double :
  utils.closest_power_of_two (2 ^ 53 + 1) = Ok (2 ^ 53) /\
  2 ^ 53 < 2 ^ 53 + 1 /\
  smallest_power_of_two_from (2 ^ 53 + 1) (2 ^ 54).
Proof.
  split; [vm_compute; reflexivity |]. split; [lia |].
  unfold smallest_power_of_two_from. split; [exists 54; split; [lia | reflexivity] |].
  split; [vm_compute; discriminate |].
  intros j Hj Hle.
  destruct (Z_lt_le_dec j 54) as [Hlt | Hge].
  - exfalso. assert (2 ^ j <= 2 ^ 53) by (apply Z.pow_le_mono_r; lia). lia.
  - apply Z.pow_le_mono_r; lia.
Qed.

(** C10.  [closest_power_of_two(0)] raises the domain error of [log2] and
    gives back no value. *)
Theorem closest_power_of_two_zero :
  utils.closest_power_of_two 0 = Raise (ValueError "math domain error") /\
  forall p, utils.closest_power_of_two 0 <> Ok p.
Proof. split; [reflexivity | intros p; discriminate]. Qed.

(** ** Bytes in memory *)

Lemma len_nonneg {A} (l : list A) : 0 <= len l.
Proof. unfold len. lia. Qed.

Lemma len_app {A} (l1 l2 : list A) : len (l1 ++ l2) = len l1 + len l2.
Proof. unfold len. rewrite length_app. lia. Qed.

Lemma len_NULL_BYTE : len NULL_BYTE = 1.
Proof. reflexivity. Qed.

Lemma load_length (m : Z -> byte) (a : Z) (n : nat) : List.length (load m a n) = n.
Proof. unfold load. rewrite length_map, length_seq. reflexivity. Qed.

Lemma load_store_same (m : Z -> byte) (a : Z) (data : bytes) (n : nat) :
  n = List.length data -> load (store m a data) a n = data.
Proof.
  intros ->. apply (nth_ext _ _ (store m a data (a + Z.of_nat 0)) (m a)).
  - apply load_length.
  - intros i Hi. rewrite load_length in Hi. unfold load.
    rewrite (map_nth (fun i => store m a data (a + Z.of_nat i))).
    rewrite seq_nth by exact Hi. cbn [Nat.add]. unfold store.
    destruct (Z.leb_spec a (a + Z.of_nat i)); [| lia].
    destruct (Z.ltb_spec (a + Z.of_nat i) (a + Z.of_nat (List.length data))); [| lia].
    cbn [andb]. replace (Z.to_nat (a + Z.of_nat i - a)) with i by lia.
    apply nth_indep. exact Hi.
Qed.

Lemma load_store_other (m : Z -> byte) (a1 : Z) (data : bytes) (a2 : Z) (n : nat) :
  a2 + Z.of_nat n <= a1 \/ a1 + len data <= a2 ->
  load (store m a1 data) a2 n = load m a2 n.
Proof.
  unfold len. intros H. unfold load. apply map_ext_in.
  intros i Hi. apply in_seq in Hi. unfold store.
  destruct (Z.leb_spec a1 (a2 + Z.of_nat i));
    destruct (Z.ltb_spec (a2 + Z.of_nat i) (a1 + Z.of_nat (List.length data)));
    cbn [andb]; try reflexivity; lia.
Qed.

Lemma len_to_bytes (big : bool) (size v : Z) :
  0 <= size -> len (to_bytes big size v) = size.
Proof.
  intros H. unfold len, to_bytes.
  destruct big; rewrite ?length_rev, length_le_split; lia.
Qed.

Lemma from_to_bytes (big : bool) (size v : Z) :
  0 <= size -> from_bytes big (to_bytes big size v) = v mod 2 ^ (8 * size).
Proof.
  intros H. unfold from_bytes, to_bytes.
  destruct big; rewrite ?rev_involutive, le_combine_split; f_equal; f_equal; lia.
Qed.

Lemma from_bytes_bound (big : bool) (data : bytes) :
  0 <= from_bytes big data < 2 ^ (8 * len data).
Proof.
  unfold from_bytes, len.
  destruct big.
  - pose proof (le_combine_bound (rev data)) as H.
    rewrite length_rev in H. exact H.
  - apply le_combine_bound.
Qed.

Lemma to_signed_wrap (size z : Z) :
  0 < size -> - 2 ^ (8 * size - 1) <= z < 2 ^ (8 * size - 1) ->
  to_signed size (z mod 2 ^ (8 * size)) = z.
Proof.
  intros Hs Hz. unfold to_signed.
  assert (E : 2 ^ (8 * size) = 2 * 2 ^ (8 * size - 1)).
  { replace (8 * size) with (Z.succ (8 * size - 1)) at 1 by lia.
    apply Z.pow_succ_r. lia. }
  assert (0 < 2 ^ (8 * size - 1)) by (apply Z.pow_pos_nonneg; lia).
  destruct (Z_lt_le_dec z 0) as [Hneg | Hpos].
  - assert (Hm : z mod 2 ^ (8 * size) = z + 2 ^ (8 * size)).
    { symmetry. apply (Z.mod_unique _ _ (-1)); lia. }
    rewrite Hm. destruct (Z.ltb_spec (z + 2 ^ (8 * size)) (2 ^ (8 * size - 1))); lia.
  - rewrite Z.mod_small by lia.
    destruct (Z.ltb_spec z (2 ^ (8 * size - 1))); lia.
Qed.

Lemma to_signed_range (size u : Z) :
  0 < size -> 0 <= u < 2 ^ (8 * size) ->
  - 2 ^ (8 * size - 1) <= to_signed size u < 2 ^ (8 * size - 1).
Proof.
  intros Hs Hu. unfold to_signed.
  assert (E : 2 ^ (8 * size) = 2 * 2 ^ (8 * size - 1)).
  { replace (8 * size) with (Z.succ (8 * size - 1)) at 1 by lia.
    apply Z.pow_succ_r. lia. }
  destruct (Z.ltb_spec u (2 ^ (8 * size - 1))); lia.
Qed.

(** ** The port: what reads see after writes *)

Lemma is_big_log (c : Call) (s : State) (o : ByteOrder) : is_big (log c s) o = is_big s o.
Proof. destruct o; reflexivity. Qed.

Lemma is_big_write_at (s : State) (a : Z) (d : bytes) (o : ByteOrder) :
  is_big (write_at s a d) o = is_big s o.
Proof. destruct o; reflexivity. Qed.

Lemma is_big_allocate (s : State) (n : Z) (o : ByteOrder) :
  is_big (snd (allocate s n)) o = is_big s o.
Proof. destruct o; reflexivity. Qed.

Lemma state_read_of_peek (kind : Scalar) (s : State) (a : Z) (o : ByteOrder) (w v : Z) :
  scalar_compute_size kind (config s) = Ok w ->
  peek kind s a o = Ok v ->
  state_read kind s a o = Ok (v, log (ReadAt a w) s).
Proof.
  unfold peek, state_read, rmap. intros ->. cbn. intros H. congruence.
Qed.

Lemma peek_defined (kind : Scalar) (s : State) (a : Z) (o : ByteOrder) (w : Z) :
  scalar_compute_size kind (config s) = Ok w ->
  exists v, peek kind s a o = Ok v.
Proof. unfold peek, state_read, rmap. intros ->. cbn. eexists; reflexivity. Qed.

Lemma state_write_eq (kind : Scalar) (s : State) (a v : Z) (o : ByteOrder) (w : Z) :
  scalar_compute_size kind (config s) = Ok w ->
  state_write kind s a v o = Ok (write_at s a (to_bytes (is_big s o) w v)).
Proof. unfold state_write. intros ->. reflexivity. Qed.

Lemma peek_log (kind : Scalar) (c : Call) (s : State) (a : Z) (o : ByteOrder) :
  peek kind (log c s) a o = peek kind s a o.
Proof.
  unfold peek, state_read, rmap. cbn [config log].
  destruct (scalar_compute_size kind (config s)); [| reflexivity].
  cbn. rewrite is_big_log. reflexivity.
Qed.

Lemma peek_allocate (kind : Scalar) (s : State) (n a : Z) (o : ByteOrder) :
  peek kind (snd (allocate s n)) a o = peek kind s a o.
Proof.
  unfold peek, state_read, rmap. cbn [config log allocate snd].
  destruct (scalar_compute_size kind (config s)); [| reflexivity].
  cbn. destruct o; reflexivity.
Qed.

Lemma peek_write_other (kind : Scalar) (s : State) (a1 : Z) (d : bytes) (a2 : Z)
  (o : ByteOrder) (w : Z) :
  scalar_compute_size kind (config s) = Ok w -> 0 <= w ->
  a2 + w <= a1 \/ a1 + len d <= a2 ->
  peek kind (write_at s a1 d) a2 o = peek kind s a2 o.
Proof.
  intros Hw Hpos Hd. unfold peek, state_read, rmap. cbn [config log write_at].
  rewrite Hw. cbn. rewrite load_store_other by lia.
  destruct o; reflexivity.
Qed.

Lemma peek_write_same (kind : Scalar) (s : State) (big : bool) (a v : Z)
  (o : ByteOrder) (w : Z) :
  scalar_compute_size kind (config s) = Ok w -> 0 < w ->
  big = is_big s o ->
  peek kind (write_at s a (to_bytes big w v)) a o
  = Ok (match signedness kind with
        | Signed => to_signed w (v mod 2 ^ (8 * w))
        | _ => v mod 2 ^ (8 * w)
        end).
Proof.
  intros Hw Hpos ->. unfold peek, state_read, rmap. cbn [config log write_at].
  rewrite Hw. cbn [rbind read_at fst snd memory log write_at].
  rewrite load_store_same
    by (pose proof (len_to_bytes (is_big s o) w v ltac:(lia)) as E; unfold len in E; lia).
  rewrite is_big_write_at, from_to_bytes by lia. reflexivity.
Qed.

Lemma peek_write_unsigned (kind : Scalar) (s : State) (big : bool) (a v : Z)
  (o : ByteOrder) (w : Z) :
  scalar_compute_size kind (config s) = Ok w -> 0 < w ->
  big = is_big s o ->
  signedness kind <> Signed ->
  0 <= v < 2 ^ (8 * w) ->
  peek kind (write_at s a (to_bytes big w v)) a o = Ok v.
Proof.
  intros Hw Hpos Hbig Hk Hv. rewrite (peek_write_same kind s big a v o w) by assumption.
  rewrite Z.mod_small by lia. destruct (signedness kind); congruence.
Qed.

Lemma peek_write_signed (kind : Scalar) (s : State) (big : bool) (a v : Z)
  (o : ByteOrder) (w : Z) :
  scalar_compute_size kind (config s) = Ok w -> 0 < w ->
  big = is_big s o ->
  signedness kind = Signed ->
  - 2 ^ (8 * w - 1) <= v < 2 ^ (8 * w - 1) ->
  peek kind (write_at s a (to_bytes big w v)) a o = Ok v.
Proof.
  intros Hw Hpos Hbig Hk Hv. rewrite (peek_write_same kind s big a v o w) by assumption.
  rewrite Hk, to_signed_wrap by lia. reflexivity.
Qed.

Lemma peek_range (kind : Scalar) (s : State) (a : Z) (o : ByteOrder) (w v : Z) :
  scalar_compute_size kind (config s) = Ok w -> 0 < w ->
  peek kind s a o = Ok v ->
  match signedness kind with
  | Signed => - 2 ^ (8 * w - 1) <= v < 2 ^ (8 * w - 1)
  | _ => 0 <= v < 2 ^ (8 * w)
  end.
Proof.
  intros Hw Hpos. unfold peek, state_read, rmap. rewrite Hw. cbn.
  intros H. injection H as <-.
  pose proof (from_bytes_bound (is_big s o) (load (memory s) a (Z.to_nat w))) as Hb.
  unfold len in Hb. rewrite load_length in Hb.
  replace (Z.of_nat (Z.to_nat w)) with w in Hb by lia.
  destruct (signedness kind); try exact Hb.
  apply to_signed_range; lia.
Qed.

Lemma read_write_same (s : State) (a : Z) (d : bytes) (n : Z) :
  n = len d -> fst (read_at (write_at s a d) a n) = d.
Proof.
  intros ->. unfold read_at, write_at. cbn.
  apply load_store_same. unfold len. lia.
Qed.

(** ** Layouts *)

Lemma usize_cases (config : PlatformConfig) (w : Z) :
  scalar_compute_size USize config = Ok w ->
  (w = 1 \/ w = 2 \/ w = 4 \/ w = 8) /\ bits config = 8 * w /\
  scalar_compute_size ISize config = Ok w /\
  scalar_compute_alignment USize config = Ok w /\
  scalar_compute_alignment ISize config = Ok w.
Proof.
  destruct config as [b p]. cbn [scalar_compute_size scalar_compute_alignment dict_get bits].
  destruct (Z.eqb_spec 8 b) as [<- | H8];
    [intros H; injection H as <-; cbv; intuition congruence |].
  destruct (Z.eqb_spec 16 b) as [<- | H16];
    [intros H; injection H as <-; cbv; intuition congruence |].
  destruct (Z.eqb_spec 32 b) as [<- | H32];
    [intros H; injection H as <-; cbv; intuition congruence |].
  destruct (Z.eqb_spec 64 b) as [<- | H64];
    [intros H; injection H as <-; cbv; intuition congruence |].
  discriminate.
Qed.

Lemma std_string_layout_ok (config : PlatformConfig) (l : std_string.Layout) :
  std_string.layout config = Ok l ->
  exists w, scalar_compute_size USize config = Ok w /\
            (w = 1 \/ w = 2 \/ w = 4 \/ w = 8) /\ bits config = 8 * w /\
            l = std_string.mkLayout (16 + 2 * w) 16 0 16 (16 + w).
Proof.
  unfold std_string.layout, pointer_t, uintsize_t.
  change (compute_size std_string.inline_content config) with (@Ok Z 16).
  change (compute_alignment std_string.inline_content config) with (@Ok Z 1).
  cbn [rbind].
  destruct (scalar_compute_size USize config) as [w | e] eqn:Hw.
  - destruct (usize_cases config w Hw) as (Hc & Hb & _ & Ha & _).
    rewrite Ha. cbn [rbind]. intros H. injection H as <-.
    exists w. repeat split; auto.
    destruct Hc as [-> | [-> | [-> | ->]]]; reflexivity.
  - cbn [rbind]. discriminate.
Qed.

Lemma old_std_string_layout_ok (config : PlatformConfig) (l : old_std_string.Layout) :
  old_std_string.layout config = Ok l ->
  exists w, scalar_compute_size USize config = Ok w /\
            scalar_compute_size ISize config = Ok w /\
            (w = 1 \/ w = 2 \/ w = 4 \/ w = 8) /\ bits config = 8 * w /\
            l = old_std_string.mkLayout (3 * w) (- 3 * w) (- 2 * w) (- w) 0.
Proof.
  unfold old_std_string.layout, intsize_t, uintsize_t.
  destruct (scalar_compute_size USize config) as [w | e] eqn:Hw.
  - destruct (usize_cases config w Hw) as (Hc & Hb & Hi & Ha & Hia).
    rewrite Hi, Ha, Hia. cbn [rbind compute_alignment char_t scalar_compute_alignment].
    intros H. injection H as <-.
    exists w. repeat split; auto.
    destruct Hc as [-> | [-> | [-> | ->]]]; reflexivity.
  - cbn [rbind]. discriminate.
Qed.

(** ** std_string.set_value *)

Lemma closest_power_of_two_defined (n : Z) :
  0 < n -> exists p, utils.closest_power_of_two n = Ok p.
Proof.
  intros H. unfold utils.closest_power_of_two, utils.closest_power_of_two_bits.
  destruct (Z.leb_spec n 0); [lia |]. eexists; reflexivity.
Qed.

Lemma smallest_power_bounded (n p k : Z) :
  smallest_power_of_two_from n p -> 0 <= k -> n <= 2 ^ k -> n <= p <= 2 ^ k.
Proof. intros (_ & Hle & Hmin) Hk Hn. split; [exact Hle | apply Hmin; assumption]. Qed.

Lemma allocations_app (l1 l2 : list Call) :
  allocations (l1 ++ l2) = allocations l1 ++ allocations l2.
Proof. unfold allocations. apply flat_map_app. Qed.

Lemma pow2_bits_lower (w : Z) : 1 <= w -> 256 <= 2 ^ (8 * w).
Proof. intros H. change 256 with (2 ^ 8). apply Z.pow_le_mono_r; lia. Qed.

Lemma next_block_log (c : Call) (s : State) : next_block (log c s) = next_block s.
Proof. reflexivity. Qed.

Ltac port_simpl :=
  repeat first [ rewrite is_big_log | rewrite is_big_write_at | rewrite is_big_allocate ].

Ltac len_simpl :=
  repeat first [ rewrite len_app | rewrite len_NULL_BYTE
               | rewrite len_to_bytes by lia ].

Ltac peek_side Hw :=
  first [ exact Hw | port_simpl; reflexivity
        | unfold apart in *; len_simpl; lia ].

(** One layer of a state off a [peek]: a log entry, an allocation, or a
    write that lies apart from the field. *)
Ltac peek_step Hw :=
  first [ rewrite peek_log
        | rewrite peek_allocate
        | erewrite peek_write_other by peek_side Hw ].

(** The field was the last thing written. *)
Ltac peek_here Hw :=
  apply peek_write_unsigned;
  [exact Hw | lia | port_simpl; reflexivity | discriminate | lia].

Ltac step_read Hsize Hpeek :=
  erewrite state_read_of_peek;
  [ | exact Hsize | repeat rewrite peek_log; exact Hpeek ]; cbn [rbind].

Ltac step_write Hsize :=
  erewrite state_write_eq by exact Hsize; cbn [rbind]; port_simpl.

Lemma set_value_written (self : Base) (v : str) (s : State) (data : bytes)
  (l : std_string.Layout) (capacity pointer : Z) :
  std_string.layout (config s) = Ok l ->
  encode v = Ok data ->
  peek uintsize_t s (address self + std_string.capacity_offset l) (order self) = Ok capacity ->
  peek pointer_t s (address self + std_string.content_offset l) (order self) = Ok pointer ->
  exists w, scalar_compute_size USize (config s) = Ok w /\
            (w = 1 \/ w = 2 \/ w = 4 \/ w = 8) /\ bits (config s) = 8 * w /\
            l = std_string.mkLayout (16 + 2 * w) 16 0 16 (16 + w) /\
            std_string.set_value self v s = written self s w capacity pointer data.
Proof.
  intros Hl Henc Hcap Hptr.
  destruct (std_string_layout_ok _ _ Hl) as (w & Hw & Hc & Hb & ->).
  exists w. repeat (split; [assumption || reflexivity |]).
  unfold std_string.set_value, written, after_length, big. rewrite Hl.
  cbn [rbind std_string.content_size std_string.content_offset
       std_string.length_offset std_string.capacity_offset] in *.
  unfold uintsize_t, pointer_t, std_string.array_write in *.
  step_read Hw Hcap. rewrite Henc. cbn [rbind]. step_write Hw.
  destruct (Z.ltb_spec capacity (len data)); [destruct (Z.ltb_spec (len data) 16) |].
  - step_write Hw. reflexivity.
  - rewrite len_app, len_NULL_BYTE.
    destruct (utils.closest_power_of_two (len data + 1)) as [size | e]; [| reflexivity].
    cbn [rbind].
    change (allocate ?s ?n) with (next_block s, snd (allocate s n)).
    cbv beta iota.
    step_write Hw. step_write Hw.
    erewrite state_read_of_peek; [ | exact Hw | ].
    2:{ erewrite peek_write_other; [ | exact Hw | lia | left; lia ].
        apply peek_write_same; [exact Hw | lia | port_simpl; reflexivity]. }
    cbn [rbind]. reflexivity.
  - destruct (Z.ltb_spec capacity 16); [reflexivity |].
    erewrite state_read_of_peek; [ | exact Hw | ].
    2:{ erewrite peek_write_other; [ | exact Hw | lia | left; lia ].
        rewrite peek_log. exact Hptr. }
    reflexivity.
Qed.

(** C1, as stated, fails on a string that lives on the heap: with capacity
    31 the two-byte "hi" is written to the block the pointer names, the
    capacity stays 31 and the inline bytes still hold the pointer; and the
    sixteen-byte text fits the capacity, so no [allocate] call is made. *)
Lemma set_value_keeps_heap_buffer :
  (encode hi = Ok (map byte.of_Z [104; 105]) /\
   len (map byte.of_Z [104; 105]) < 16 /\
   exists s', std_string.set_value sample hi heap_state = Ok s' /\
     peek uintsize_t s' (0x100 + 20) NATIVE = Ok 31 /\
     fst (read_at s' 0x100 3) <> map byte.of_Z [104; 105; 0] /\
     fst (read_at s' 0x2000 3) = map byte.of_Z [104; 105; 0]) /\
  (encode sixteen = Ok (map byte.of_Z (repeat 97 16)) /\
   16 <= len (map byte.of_Z (repeat 97 16)) /\
   exists s', std_string.set_value sample sixteen heap_state = Ok s' /\
     allocations (calls s') = []).
Proof.
  split.
  - split; [reflexivity |]. split; [reflexivity |].
    eexists. split; [reflexivity |]. split; [vm_compute; reflexivity |].
    split; [vm_compute; discriminate | vm_compute; reflexivity].
  - split; [reflexivity |]. split; [vm_compute; discriminate |].
    eexists. split; [reflexivity |]. vm_compute. reflexivity.
Qed.

(** C1, amended.  For a text whose encoded length fits a [usize] of the
    target, whether [set_value] allocates depends on the capacity the
    string has: a text that fits the capacity, and any text under 16 bytes,
    is written with no [allocate] call; a text under 16 bytes goes to the
    inline buffer when the capacity is under 16, and the capacity is then 15
    if the text outgrew it and unchanged if not; a text that fits a capacity
    of 16 or more goes to the block the string points to (taken to lie apart
    from the string object) and the capacity is unchanged; a text of 16
    bytes or more that outgrows the capacity makes exactly one [allocate]
    call, for [closest_power_of_two(L + 1)] bytes, the smallest power of two
    from [L + 1] on within the exact range of that function. *)
Theorem set_value_allocates (self : Base) (v : str) (s : State) (data : bytes)
  (l : std_string.Layout) (capacity : Z) :
  std_string.layout (config s) = Ok l ->
  encode v = Ok data ->
  peek uintsize_t s (address self + std_string.capacity_offset l) (order self) = Ok capacity ->
  len data < 2 ^ bits (config s) ->
  exists s', std_string.set_value self v s = Ok s' /\
    (len data < 16 \/ len data <= capacity ->
     allocations (calls s') = allocations (calls s)) /\
    (len data < 16 -> capacity < 16 ->
     fst (read_at s' (address self + std_string.content_offset l) (len data + 1))
     = data ++ NULL_BYTE /\
     peek uintsize_t s' (address self + std_string.capacity_offset l) (order self)
     = Ok (if capacity <? len data then 15 else capacity)) /\
    (len data <= capacity -> 16 <= capacity ->
     forall pointer,
       peek pointer_t s (address self + std_string.content_offset l) (order self)
       = Ok pointer ->
       apart pointer (len data + 1) (address self) (std_string.size l) ->
       fst (read_at s' pointer (len data + 1)) = data ++ NULL_BYTE /\
       peek uintsize_t s' (address self + std_string.capacity_offset l) (order self)
       = Ok capacity) /\
    (16 <= len data -> capacity < len data ->
     exists size, utils.closest_power_of_two (len data + 1) = Ok size /\
       allocations (calls s') = allocations (calls s) ++ [size] /\
       (len data + 1 <= LOG2_EXACT_MAX ->
        smallest_power_of_two_from (len data + 1) size)).
Proof.
  intros Hl Henc Hcap Hrep.
  destruct (std_string_layout_ok _ _ Hl) as (w0 & Hw0 & _).
  destruct (peek_defined pointer_t s (address self + std_string.content_offset l)
              (order self) w0 Hw0) as (pointer & Hptr).
  destruct (set_value_written self v s data l capacity pointer Hl Henc Hcap Hptr)
    as (w & Hw & Hc & Hb & -> & ->).
  cbn [std_string.content_offset std_string.capacity_offset std_string.size] in *.
  unfold uintsize_t, pointer_t in *.
  pose proof (len_nonneg data) as Hlen.
  pose proof (pow2_bits_lower w ltac:(lia)) as H256.
  unfold written, after_length, big.
  destruct (Z.ltb_spec capacity (len data)) as [Hgrow | Hfit];
    [destruct (Z.ltb_spec (len data) 16) as [Hshort | Hlong] |
     destruct (Z.ltb_spec capacity 16) as [Hin | Hout]].
  - eexists; split; [reflexivity |]. split; [| split; [| split]].
    + intros _. cbn [calls write_at log]. rewrite !allocations_app. cbn.
      rewrite !app_nil_r. reflexivity.
    + intros _ _. split.
      * apply read_write_same. len_simpl. reflexivity.
      * repeat peek_step Hw. peek_here Hw.
    + intros; lia.
    + intros; lia.
  - destruct (closest_power_of_two_defined (len data + 1) ltac:(lia)) as (size & Hsize).
    rewrite Hsize. cbn [rbind].
    eexists; split; [reflexivity |]. split; [| split; [| split]].
    + intros; lia.
    + intros; lia.
    + intros; lia.
    + intros _ _. exists size. split; [reflexivity |]. split.
      * cbn [calls write_at log allocate snd]. rewrite !allocations_app. cbn.
        rewrite !app_nil_r. reflexivity.
      * intros Hex. destruct (closest_power_of_two_smallest (len data + 1) ltac:(lia))
          as (p & Hp & Hsm). congruence.
  - eexists; split; [reflexivity |]. split; [| split; [| split]].
    + intros _. cbn [calls write_at log]. rewrite !allocations_app. cbn.
      rewrite !app_nil_r. reflexivity.
    + intros _ _. split.
      * apply read_write_same. len_simpl. reflexivity.
      * repeat peek_step Hw. exact Hcap.
    + intros; lia.
    + intros; lia.
  - eexists; split; [reflexivity |]. split; [| split; [| split]].
    + intros _. cbn [calls write_at log]. rewrite !allocations_app. cbn.
      rewrite !app_nil_r. reflexivity.
    + intros; lia.
    + intros _ _ pointer' Hptr' Hapart.
      assert (pointer' = pointer) as -> by congruence.
      split.
      * apply read_write_same. len_simpl. reflexivity.
      * repeat peek_step Hw. exact Hcap.
    + intros; lia.
Qed.

Lemma set_value_allocates_witness :
  exists s',
    std_string.set_value sample seventeen inline_state = Ok s' /\
    allocations (calls s') = [32].
Proof.
  destruct (set_value_allocates sample seventeen inline_state
              (map byte.of_Z (repeat 97 17)) layout32 15)
    as (s' & Hrun & _ & _ & _ & Hgrow);
    [vm_compute; reflexivity | vm_compute; reflexivity | vm_compute; reflexivity
    | vm_compute; reflexivity |].
  destruct Hgrow as (size & Hsize & Hcalls & _);
    [vm_compute; discriminate | vm_compute; reflexivity |].
  vm_compute in Hsize. injection Hsize as <-.
  exists s'. split; [exact Hrun | exact Hcalls].
Defined.

(** C7, as stated, fails on a string whose pointer names a part of the
    string object itself.  Here the capacity is 31 and the pointer names the
    length field: the two-byte "hi" fits, so after the length 2 is stored
    the bytes of the text are written over it, and the length field reads
    [0x6968] when [set_value] is done. *)
Lemma set_value_overwrites_length :
  encode hi = Ok (map byte.of_Z [104; 105]) /\
  len (map byte.of_Z [104; 105]) = 2 /\
  exists s', std_string.set_value sample hi aliased_state = Ok s' /\
    peek uintsize_t s' (0x100 + 16) NATIVE = Ok 26984.
Proof.
  split; [reflexivity |]. split; [reflexivity |].
  eexists. split; [reflexivity |]. vm_compute. reflexivity.
Qed.

(** C7, amended.  After [set_value] the length field holds the byte length
    of the encoded text and the capacity field holds at least as much; a
    capacity that is set anew is the size of the buffer less the byte of the
    terminator, 15 for the inline buffer and the block size less one for a
    block.  The length is taken to fit a [usize] of the target, and the
    buffer on the heap, the one the string has or the one it is given, to
    lie apart from the string object; a block that is given lies in the
    address space of the target, and its size is within the exact range of
    [closest_power_of_two]. *)
Theorem set_value_length_capacity (self : Base) (v : str) (s : State) (data : bytes)
  (l : std_string.Layout) (capacity pointer : Z) :
  std_string.layout (config s) = Ok l ->
  encode v = Ok data ->
  peek uintsize_t s (address self + std_string.capacity_offset l) (order self) = Ok capacity ->
  peek pointer_t s (address self + std_string.content_offset l) (order self) = Ok pointer ->
  len data < 2 ^ bits (config s) ->
  (16 <= capacity -> len data <= capacity ->
   apart pointer (len data + 1) (address self) (std_string.size l)) ->
  (16 <= len data -> capacity < len data ->
   len data + 1 <= LOG2_EXACT_MAX /\
   0 <= next_block s < 2 ^ bits (config s) /\
   apart (next_block s) (len data + 1) (address self) (std_string.size l)) ->
  exists s' c,
    std_string.set_value self v s = Ok s' /\
    peek uintsize_t s' (address self + std_string.length_offset l) (order self)
    = Ok (len data) /\
    peek uintsize_t s' (address self + std_string.capacity_offset l) (order self) = Ok c /\
    len data <= c /\
    (capacity < len data -> len data < 16 -> c = std_string.CONTENT_SIZE - 1) /\
    (capacity < len data -> 16 <= len data ->
     utils.closest_power_of_two (len data + 1) = Ok (c + 1)).
Proof.
  intros Hl Henc Hcap Hptr Hrep Hheap Hblock.
  destruct (set_value_written self v s data l capacity pointer Hl Henc Hcap Hptr)
    as (w & Hw & Hc & Hb & -> & ->).
  cbn [std_string.content_offset std_string.capacity_offset std_string.length_offset
       std_string.size] in *.
  unfold uintsize_t, std_string.CONTENT_SIZE in *. rewrite Hb in *.
  pose proof (len_nonneg data) as Hlen.
  pose proof (pow2_bits_lower w ltac:(lia)) as H256.
  unfold written, after_length, big.
  destruct (Z.ltb_spec capacity (len data)) as [Hgrow | Hfit];
    [destruct (Z.ltb_spec (len data) 16) as [Hshort | Hlong] |
     destruct (Z.ltb_spec capacity 16) as [Hin | Hout]].
  - eexists; exists 15.
    split; [reflexivity |]. split; [| split; [| repeat split; intros; lia]].
    + repeat peek_step Hw. peek_here Hw.
    + repeat peek_step Hw. peek_here Hw.
  - destruct (Hblock Hlong Hgrow) as (Hex & Hnb & Hap).
    destruct (closest_power_of_two_smallest (len data + 1) ltac:(lia))
      as (size & Hsize & Hsm).
    destruct (smallest_power_bounded _ _ (8 * w) Hsm ltac:(lia) ltac:(lia)) as [Hs1 Hs2].
    rewrite Hsize. cbn [rbind]. rewrite (Z.mod_small (next_block s)) by lia.
    eexists; exists (size - 1).
    split; [reflexivity |]. split; [| split; [| split; [lia | split]]].
    + repeat peek_step Hw. peek_here Hw.
    + repeat peek_step Hw. peek_here Hw.
    + intros; lia.
    + intros _ _. f_equal. lia.
  - eexists; exists capacity.
    split; [reflexivity |]. split; [| split; [| repeat split; intros; lia]].
    + repeat peek_step Hw. peek_here Hw.
    + repeat peek_step Hw. exact Hcap.
  - specialize (Hheap Hout Hfit).
    eexists; exists capacity.
    split; [reflexivity |]. split; [| split; [| repeat split; intros; lia]].
    + repeat peek_step Hw. peek_here Hw.
    + repeat peek_step Hw. exact Hcap.
Qed.

Lemma set_value_length_capacity_witness :
  exists s',
    std_string.set_value sample seventeen inline_state = Ok s' /\
    peek uintsize_t s' (0x100 + 16) NATIVE = Ok 17 /\
    peek uintsize_t s' (0x100 + 20) NATIVE = Ok 31.
Proof.
  destruct (set_value_length_capacity sample seventeen inline_state
              (map byte.of_Z (repeat 97 17)) layout32 15 0x6c6c6568)
    as (s' & c & Hrun & Hlength & Hcapacity & _ & _ & Hblock).
  - vm_compute; reflexivity.
  - vm_compute; reflexivity.
  - vm_compute; reflexivity.
  - vm_compute; reflexivity.
  - vm_compute; reflexivity.
  - intros H; vm_compute in H; congruence.
  - intros _ _. unfold apart. vm_compute.
    repeat split; first [discriminate | right; discriminate].
  - specialize (Hblock ltac:(vm_compute; reflexivity) ltac:(vm_compute; discriminate)).
    assert (Hsize : utils.closest_power_of_two
                      (len (map byte.of_Z (repeat 97 17)) + 1) = Ok 32)
      by (vm_compute; reflexivity).
    rewrite Hsize in Hblock. injection Hblock as Hc.
    assert (c = 31) as -> by lia.
    exists s'. split; [exact Hrun | split; [exact Hlength | exact Hcapacity]].
Defined.

(** ** old_std_string.set_value *)

(** C3.  When the encoded text is longer than the capacity in the header,
    [set_value] makes one [allocate] call, for
    [closest_power_of_two(L + 1 + header)] bytes, the smallest power of two
    from there on within the exact range of that function.  Once the block
    lies in the address space of the target, apart from the pointer slot of
    the string, and is as large as was asked for, then afterwards: the slot
    points [header] bytes into the block; the header there holds the block
    size less [header] and less one as capacity, the reference count of
    the old header, and [L] as length; the content holds the encoded bytes
    and a null byte, and writing them was the last call. *)
Theorem old_set_value_grows (self : Base) (v : str) (s : State) (data : bytes)
  (l : old_std_string.Layout) (long_string ref_count capacity : Z) :
  old_std_string.layout (config s) = Ok l ->
  encode v = Ok data ->
  peek pointer_t s (address self + old_std_string.pointer_offset) (order self)
  = Ok long_string ->
  peek intsize_t s (long_string + old_std_string.ref_count_offset l) (order self)
  = Ok ref_count ->
  peek uintsize_t s (long_string + old_std_string.capacity_offset l) (order self)
  = Ok capacity ->
  capacity < len data ->
  let header := old_std_string.size l in
  let block := next_block s in
  let long_string' := block + header in
  exists s' size',
    old_std_string.set_value self v s = Ok s' /\
    utils.closest_power_of_two (len data + 1 + header) = Ok size' /\
    (len data + 1 + header <= LOG2_EXACT_MAX ->
     smallest_power_of_two_from (len data + 1 + header) size') /\
    allocations (calls s') = allocations (calls s) ++ [size'] /\
    (0 <= block /\ block + size' <= 2 ^ bits (config s) /\
     len data + 1 + header <= size' ->
     apart block size' (address self) (bits (config s) / 8) ->
     peek pointer_t s' (address self + old_std_string.pointer_offset) (order self)
     = Ok long_string' /\
     peek uintsize_t s' (long_string' + old_std_string.capacity_offset l) (order self)
     = Ok (size' - header - 1) /\
     peek intsize_t s' (long_string' + old_std_string.ref_count_offset l) (order self)
     = Ok ref_count /\
     peek uintsize_t s' (long_string' + old_std_string.length_offset l) (order self)
     = Ok (len data) /\
     fst (read_at s' (long_string' + old_std_string.content_offset l) (len data + 1))
     = data ++ NULL_BYTE /\
     exists before, calls s' = before ++ [WriteAt long_string' (data ++ NULL_BYTE)]).
Proof.
  intros Hl Henc Hptr Hrc Hcap Hgrow header block long_string'.
  subst header block long_string'.
  destruct (old_std_string_layout_ok _ _ Hl) as (w & Hw & Hi & Hc & Hb & ->).
  cbn [old_std_string.size old_std_string.capacity_offset old_std_string.length_offset
       old_std_string.ref_count_offset old_std_string.content_offset] in *.
  unfold uintsize_t, intsize_t, pointer_t, old_std_string.pointer_offset in *.
  rewrite Hb in *. replace (8 * w / 8) with w in * by (rewrite Z.mul_comm, Z.div_mul; lia).
  pose proof (len_nonneg data) as Hlen.
  destruct (closest_power_of_two_defined (len data + 1 + 3 * w) ltac:(lia))
    as (size' & Hsize).
  pose proof (peek_range ISize s _ _ w ref_count Hi ltac:(lia) Hrc) as Hrange.
  cbn [signedness] in Hrange.
  unfold old_std_string.set_value. rewrite Hl.
  cbn [rbind old_std_string.size old_std_string.capacity_offset
       old_std_string.length_offset old_std_string.ref_count_offset
       old_std_string.content_offset].
  unfold uintsize_t, intsize_t, pointer_t, old_std_string.pointer_offset.
  step_read Hw Hptr. step_read Hi Hrc. step_read Hw Hcap.
  rewrite Henc. cbn [rbind].
  destruct (Z.ltb_spec capacity (len data)) as [_ | Hno]; [| lia].
  rewrite len_app, len_NULL_BYTE, Hsize. cbn [rbind].
  change (allocate ?s ?n) with (next_block s, snd (allocate s n)).
  cbv beta iota.
  rewrite !next_block_log.
  step_write Hw.
  erewrite state_read_of_peek;
    [ | exact Hw
      | apply peek_write_same; [exact Hw | lia | port_simpl; reflexivity] ].
  cbn [rbind signedness].
  step_write Hw. step_write Hi. step_write Hw.
  eexists; exists size'. split; [reflexivity |].
  split; [reflexivity |].
  split.
  { intros Hexact.
    destruct (closest_power_of_two_smallest (len data + 1 + 3 * w) ltac:(lia))
      as (p & Hp & Hsm). congruence. }
  split.
  { cbn [calls write_at log allocate snd]. rewrite !allocations_app. cbn.
    rewrite !app_nil_r. reflexivity. }
  intros (Hnb & Htop & Hroom) Hapart.
  rewrite (Z.mod_small (next_block s + 3 * w)) by lia.
  split; [repeat peek_step Hw; peek_here Hw |].
  split; [repeat peek_step Hw; peek_here Hw |].
  split.
  { repeat peek_step Hi.
    apply peek_write_signed;
      [exact Hi | lia | port_simpl; reflexivity | reflexivity | exact Hrange]. }
  split; [repeat peek_step Hw; peek_here Hw |].
  split; [apply read_write_same; len_simpl; reflexivity |].
  eexists. cbn [calls write_at log]. rewrite !Z.add_0_r. reflexivity.
Qed.

Lemma old_set_value_grows_witness :
  exists s',
    old_std_string.set_value sample four old_state = Ok s' /\
    allocations (calls s') = [32] /\
    peek pointer_t s' 0x100 NATIVE = Ok (0x10000 + 12) /\
    peek uintsize_t s' 0x10000 NATIVE = Ok 19 /\
    peek intsize_t s' (0x10000 + 8) NATIVE = Ok 7 /\
    peek uintsize_t s' (0x10000 + 4) NATIVE = Ok 4 /\
    fst (read_at s' (0x10000 + 12) 5) = map byte.of_Z [104; 105; 106; 107; 0].
Proof.
  destruct (old_set_value_grows sample four old_state
              (map byte.of_Z [104; 105; 106; 107]) layout32_old 0x20c 7 3)
    as (s' & size' & Hrun & Hsize & _ & Hcalls & Hframe);
    [vm_compute; reflexivity | vm_compute; reflexivity | vm_compute; reflexivity
    | vm_compute; reflexivity | vm_compute; reflexivity | vm_compute; reflexivity |].
  vm_compute in Hsize. injection Hsize as <-.
  destruct Hframe as (Hpointer & Hcapacity & Hcount & Hlength & Hcontent & _).
  - vm_compute. repeat split; discriminate.
  - unfold apart. right. vm_compute. discriminate.
  - exists s'. repeat split; assumption.
Defined.

(** ** std_string.get_value *)

(** Reading a string whose layout is known either gives a text or raises
    [NameError]; no [UnicodeDecodeError] leaves [get_value]. *)
Lemma get_value_outcomes (self : Base) (s : State) (l : std_string.Layout) :
  std_string.layout (config s) = Ok l ->
  (exists text s', std_string.get_value self s = Ok (text, s')) \/
  std_string.get_value self s = Raise (NameError "EMPTY_STRING").
Proof.
  intros Hl.
  destruct (std_string_layout_ok _ _ Hl) as (w & Hw & Hc & Hb & ->).
  unfold std_string.get_value. rewrite Hl.
  cbn [rbind std_string.content_size std_string.content_offset
       std_string.length_offset std_string.capacity_offset].
  unfold uintsize_t, pointer_t.
  destruct (peek_defined USize s (address self + (16 + w)) (order self) w Hw)
    as (capacity & Hcap).
  step_read Hw Hcap.
  destruct (peek_defined USize s (address self + 16) (order self) w Hw)
    as (length & Hlen).
  step_read Hw Hlen.
  destruct (peek_defined USize s (address self + 0) (order self) w Hw)
    as (pointer & Hptr).
  destruct (capacity <? 16).
  - unfold read_at. cbv beta iota zeta. cbn [memory log].
    destruct (decode (load (memory s) (address self + 0) (Z.to_nat length))).
    + left. eexists; eexists; reflexivity.
    + step_read Hw Hptr. unfold read_at. cbv beta iota zeta. cbn [memory log].
      destruct (decode (load (memory s) pointer (Z.to_nat length)));
        [left; eexists; eexists; reflexivity | right; reflexivity].
  - step_read Hw Hptr. unfold read_at. cbv beta iota zeta. cbn [memory log].
    destruct (decode (load (memory s) pointer (Z.to_nat length)));
      [left; eexists; eexists; reflexivity | right; reflexivity].
Qed.

(** C6.  When neither the inline bytes nor the bytes behind the pointer are
    text, [get_value] does not give the empty string: the name
    [EMPTY_STRING] it returns is bound nowhere in the module, and the call
    ends in a [NameError]. *)
Theorem get_value_undecodable :
  decode (fst (read_at broken_state 0x100 1)) = None /\
  decode (fst (read_at broken_state 0xFFFFFFFF 1)) = None /\
  std_string.get_value sample broken_state = Raise (NameError "EMPTY_STRING").
Proof. repeat split; vm_compute; reflexivity. Qed.

(** ** The two operations together *)

(** A text written to the sample string reads back, from the block it was
    given. *)
Example set_then_get :
  exists s' s'',
    std_string.set_value sample seventeen inline_state = Ok s' /\
    std_string.get_value sample s' = Ok (seventeen, s'') /\
    allocations (calls s'') = [32].
Proof.
  eexists; eexists. split; [reflexivity |]. split; [reflexivity |].
  vm_compute. reflexivity.
Qed.

(** The same on a big-endian 64-bit target. *)
Example set_then_get_big_endian :
  exists s' s'',
    std_string.set_value (mkBase 0x400 BIG) seventeen
      (mkState linux64 true (fun _ => byte.of_Z 0) heap_blocks []) = Ok s' /\
    std_string.get_value (mkBase 0x400 BIG) s' = Ok (seventeen, s'') /\
    peek uintsize_t s'' (0x400 + 24) BIG = Ok 31.
Proof.
  eexists; eexists. split; [reflexivity |]. split; [reflexivity |].
  vm_compute. reflexivity.
Qed.

(** * Further properties of the code *)

(** ** More on the sizes of fields *)

Ltac one_of_four :=
  cbv; first [ left; reflexivity | right; left; reflexivity
             | right; right; left; reflexivity | right; right; right; reflexivity ].

Lemma scalar_size_outcomes (kind : Scalar) (config : PlatformConfig) :
  (exists n, scalar_compute_size kind config = Ok n /\
             (n = 1 \/ n = 2 \/ n = 4 \/ n = 8)) \/
  (scalar_compute_size kind config = Raise (KeyError (bits config)) /\
   ~ known_bits config).
Proof.
  assert (D : forall d1 d2 d3 d4,
             (d1 = 1 \/ d1 = 2 \/ d1 = 4 \/ d1 = 8) ->
             (d2 = 1 \/ d2 = 2 \/ d2 = 4 \/ d2 = 8) ->
             (d3 = 1 \/ d3 = 2 \/ d3 = 4 \/ d3 = 8) ->
             (d4 = 1 \/ d4 = 2 \/ d4 = 4 \/ d4 = 8) ->
             (exists n, dict_get [(8, d1); (16, d2); (32, d3); (64, d4)] (bits config) = Ok n /\
                        (n = 1 \/ n = 2 \/ n = 4 \/ n = 8)) \/
             (dict_get [(8, d1); (16, d2); (32, d3); (64, d4)] (bits config)
              = Raise (KeyError (bits config)) /\ ~ known_bits config)).
  { intros d1 d2 d3 d4 H1 H2 H3 H4. cbn [dict_get].
    destruct (Z.eqb_spec 8 (bits config)); [left; eauto |].
    destruct (Z.eqb_spec 16 (bits config)); [left; eauto |].
    destruct (Z.eqb_spec 32 (bits config)); [left; eauto |].
    destruct (Z.eqb_spec 64 (bits config)); [left; eauto |].
    right. split; [reflexivity |]. unfold known_bits. lia. }
  destruct kind; cbn [scalar_compute_size];
    try (left; eexists; split; [reflexivity | one_of_four]);
    try (apply D; one_of_four);
    try (destruct (bits config <? 32);
         (left; eexists; split; [reflexivity | one_of_four]));
    try (destruct ((32 <? bits config) && negb (is_windows (platform config)));
         (left; eexists; split; [reflexivity | one_of_four])).
Qed.

(** X1.  On every configuration each C integer kind has a size, no error is
    raised: [Byte] takes 1 byte and [LongLong] 8, the sizes never decrease
    along [Byte], [Short], [Int], [Long], [LongLong], and every unsigned
    kind has the size of its signed twin. *)
Theorem integer_sizes_ordered (config : PlatformConfig) (offset : Z) :
  let size kind := compute_size (ScalarField kind offset) config in
  exists b s i l ll,
    size Byte = Ok b /\ size Short = Ok s /\ size Int = Ok i /\
    size Long = Ok l /\ size LongLong = Ok ll /\
    size UByte = Ok b /\ size UShort = Ok s /\ size UInt = Ok i /\
    size ULong = Ok l /\ size ULongLong = Ok ll /\
    1 = b /\ b <= s <= i /\ i <= l <= ll /\ ll = 8.
Proof.
  cbn [compute_size scalar_compute_size].
  destruct (Z.ltb_spec (bits config) 32);
    destruct (Z.ltb_spec 32 (bits config));
    destruct (is_windows (platform config)); cbn [andb negb];
    do 5 eexists; repeat (split; [reflexivity |]); cbv; repeat split; discriminate.
Qed.

(** X2.  [ISize], [USize] and [Size] have the same size on every
    configuration: an eighth of the configured width when that is 8, 16, 32
    or 64 bits, and a [KeyError] carrying the width otherwise. *)
Theorem size_kinds_follow_bits (config : PlatformConfig) (offset : Z) :
  let size kind := compute_size (ScalarField kind offset) config in
  size ISize = size USize /\ size Size = size USize /\
  (known_bits config -> size USize = Ok (bits config / 8)) /\
  (~ known_bits config -> size USize = Raise (KeyError (bits config))).
Proof.
  cbn [compute_size scalar_compute_size dict_get]. unfold known_bits.
  destruct (Z.eqb_spec 8 (bits config)) as [<- | H8];
    [repeat split; try reflexivity; intros; lia |].
  destruct (Z.eqb_spec 16 (bits config)) as [<- | H16];
    [repeat split; try reflexivity; intros; lia |].
  destruct (Z.eqb_spec 32 (bits config)) as [<- | H32];
    [repeat split; try reflexivity; intros; lia |].
  destruct (Z.eqb_spec 64 (bits config)) as [<- | H64];
    [repeat split; try reflexivity; intros; lia |].
  repeat split; try reflexivity. intros; lia.
Qed.

(** X3.  [compute_size] raises the [TypeError] of an unsized array exactly
    for the descriptors that hold an array without a length somewhere, at
    any depth of nesting; a scalar never raises it. *)
Theorem unsized_raises (f : Field) (config : PlatformConfig) :
  compute_size f config = Raise (TypeError UNSIZED_ARRAY) <-> unsized f = true.
Proof.
  induction f as [kind offset | type IH [n |] offset]; cbn [compute_size unsized].
  - split; [| discriminate].
    destruct (scalar_size_outcomes kind config) as [(n & -> & _) | (-> & _)];
      discriminate.
  - rewrite <- IH. destruct (compute_size type config); cbn [rbind];
      split; congruence.
  - split; reflexivity.
Qed.

(** X4.  The alignment of an array, however nested and whether its lengths
    are given or not, is the alignment of the scalar at its bottom; so an
    array without a length, which has no size, still has an alignment, of 1
    to 8 bytes on a configuration of 8, 16, 32 or 64 bits. *)
Theorem alignment_ignores_lengths (f : Field) (config : PlatformConfig) :
  compute_alignment f config = scalar_compute_alignment (innermost f) config /\
  (known_bits config -> exists a, compute_alignment f config = Ok a /\ 1 <= a <= 8).
Proof.
  assert (E : compute_alignment f config = scalar_compute_alignment (innermost f) config).
  { induction f as [kind offset | type IH length offset];
      cbn [compute_alignment innermost]; [reflexivity | exact IH]. }
  split; [exact E |]. intros H. rewrite E.
  replace (scalar_compute_alignment (innermost f) config)
    with (scalar_compute_size (innermost f) config)
    by (destruct (innermost f); reflexivity).
  apply scalar_size_defined. exact H.
Qed.

(** X5.  A descriptor that has a size has an alignment; the size is the
    alignment times the number of scalars the descriptor spans, hence a
    multiple of the alignment. *)
Theorem size_is_alignment_times_span (f : Field) (config : PlatformConfig) (n : Z) :
  compute_size f config = Ok n ->
  exists a, compute_alignment f config = Ok a /\ n = a * span f /\ (a | n).
Proof.
  revert n. induction f as [kind offset | type IH [m |] offset];
    cbn [compute_size compute_alignment span]; intros n H.
  - exists n. split; [| split; [lia | exists 1; lia]].
    rewrite <- H. destruct kind; reflexivity.
  - destruct (compute_size type config) as [k |] eqn:E; cbn [rbind] in H; [| discriminate].
    injection H as <-. destruct (IH k eq_refl) as (a & Ha & Hk & _).
    exists a. split; [exact Ha |]. split; [subst k; ring |].
    exists (span type * m). subst k. ring.
  - discriminate.
Qed.

Lemma size_is_alignment_times_span_witness :
  exists a, compute_alignment grid linux64 = Ok a /\ 24 = a * span grid /\ (a | 24).
Proof.
  apply (size_is_alignment_times_span grid linux64 24). vm_compute. reflexivity.
Defined.

(** ** Dictionaries and the fields of a class *)

Section PyDictFacts.

Context {V : Type}.
Implicit Types (d items : list (string * V)) (k : string) (v : V).

Lemma getitem_setitem d k v k' :
  getitem (setitem d k v) k' = if String.eqb k k' then Some v else getitem d k'.
Proof.
  induction d as [| [k0 v0] d IH]; cbn [setitem getitem].
  - reflexivity.
  - destruct (String.eqb_spec k0 k) as [-> | Hne]; cbn [getitem].
    + destruct (String.eqb_spec k k'); reflexivity.
    + rewrite IH. destruct (String.eqb_spec k0 k') as [-> | Hne'];
        [destruct (String.eqb_spec k k'); congruence | reflexivity].
Qed.

Lemma keys_setitem d k v :
  keys (setitem d k v) = if in_dec string_dec k (keys d) then keys d else keys d ++ [k].
Proof.
  unfold keys. induction d as [| [k0 v0] d IH]; cbn [setitem map fst].
  - destruct (in_dec string_dec k []) as [[] |]; reflexivity.
  - destruct (String.eqb_spec k0 k) as [-> | Hne]; cbn [map fst].
    + destruct (in_dec string_dec k (k :: map fst d)) as [_ | Hn];
        [reflexivity | exfalso; apply Hn; left; reflexivity].
    + rewrite IH.
      destruct (in_dec string_dec k (map fst d)) as [Hin | Hn];
        destruct (in_dec string_dec k (k0 :: map fst d)) as [Hin' | Hn'];
        try reflexivity.
      * exfalso. apply Hn'. right. exact Hin.
      * destruct Hin' as [E | Hin']; [congruence | contradiction].
Qed.

Lemma getitem_None d k : getitem d k = None <-> ~ In k (keys d).
Proof.
  unfold keys. induction d as [| [k0 v0] d IH]; cbn [getitem map fst In].
  - tauto.
  - destruct (String.eqb_spec k0 k) as [-> | Hne].
    + split; [discriminate | intros H; exfalso; apply H; left; reflexivity].
    + rewrite IH. tauto.
Qed.

Lemma NoDup_keys_setitem d k v : NoDup (keys d) -> NoDup (keys (setitem d k v)).
Proof.
  intros H. rewrite keys_setitem.
  destruct (in_dec string_dec k (keys d)) as [Hin | Hn]; [exact H |].
  apply NoDup_app; [exact H | constructor; [intros [] | constructor] |].
  intros x Hx [<- | []]. contradiction.
Qed.

Lemma NoDup_keys_update d items : NoDup (keys d) -> NoDup (keys (update d items)).
Proof.
  unfold update. revert d. induction items as [| [k v] items IH]; intros d H;
    cbn [fold_left]; [exact H |].
  apply IH. apply NoDup_keys_setitem. exact H.
Qed.

Lemma getitem_update d items k :
  getitem (update d items) k
  = match last_item items k with Some v => Some v | None => getitem d k end.
Proof.
  unfold update. revert d. induction items as [| [k0 v0] items IH]; intros d;
    cbn [fold_left last_item fst snd]; [reflexivity |].
  rewrite IH. destruct (last_item items k); [reflexivity |].
  rewrite getitem_setitem. destruct (String.eqb k0 k); reflexivity.
Qed.

Lemma keys_update_prefix d items :
  exists extra, keys (update d items) = keys d ++ extra /\
                forall k, In k extra -> In k (keys items) /\ ~ In k (keys d).
Proof.
  unfold update. revert d. induction items as [| [k0 v0] items IH]; intros d;
    cbn [fold_left fst snd].
  - exists []. split; [symmetry; apply app_nil_r | intros k []].
  - destruct (IH (setitem d k0 v0)) as (extra & E & Hex).
    rewrite keys_setitem in E, Hex.
    destruct (in_dec string_dec k0 (keys d)) as [Hin | Hn].
    + exists extra. split; [exact E |]. intros k Hk.
      destruct (Hex k Hk) as [H1 H2]. split; [right; exact H1 | exact H2].
    + exists (k0 :: extra). split; [rewrite E, <- app_assoc; reflexivity |].
      intros k [<- | Hk].
      * split; [left; reflexivity | exact Hn].
      * destruct (Hex k Hk) as [H1 H2]. split; [right; exact H1 |].
        intros Hd. apply H2. apply in_or_app. left. exact Hd.
Qed.

Lemma keys_update_in d items k :
  In k (keys (update d items)) <-> In k (keys d) \/ In k (keys items).
Proof.
  unfold update. revert d. induction items as [| [k0 v0] items IH]; intros d;
    cbn [fold_left fst snd].
  - unfold keys. cbn [map In]. tauto.
  - rewrite IH, keys_setitem.
    change (keys ((k0, v0) :: items)) with (k0 :: keys items). cbn [In].
    destruct (in_dec string_dec k0 (keys d)) as [Hin | Hn].
    + split; [tauto |]. intros [H | [<- | H]]; tauto.
    + rewrite in_app_iff. cbn [In]. tauto.
Qed.

Lemma last_item_app items1 items2 k :
  last_item (items1 ++ items2) k
  = match last_item items2 k with Some v => Some v | None => last_item items1 k end.
Proof.
  induction items1 as [| [k0 v0] items1 IH]; cbn [app last_item].
  - destruct (last_item items2 k); reflexivity.
  - rewrite IH. destruct (last_item items2 k); reflexivity.
Qed.

Lemma last_item_None items k : last_item items k = None <-> ~ In k (keys items).
Proof.
  unfold keys. induction items as [| [k0 v0] items IH]; cbn [last_item map fst In].
  - tauto.
  - destruct (last_item items k) eqn:E.
    + split; [discriminate |]. intros H. exfalso.
      assert (Hn : ~ In k (map fst items)) by tauto.
      apply IH in Hn. discriminate.
    + destruct (String.eqb_spec k0 k) as [-> | Hne].
      * split; [discriminate | intros H; exfalso; apply H; left; reflexivity].
      * split; [| reflexivity]. intros _ [H | H]; [congruence |].
        apply IH in H; [exact H | reflexivity].
Qed.

Lemma last_item_unique items k v :
  NoDup (keys items) -> In (k, v) items -> last_item items k = Some v.
Proof.
  unfold keys. induction items as [| [k0 v0] items IH]; cbn [last_item map fst In];
    intros Hnd Hin; [contradiction |].
  inversion Hnd as [| ? ? Hn Hnd']; subst.
  destruct Hin as [E | Hin].
  - injection E as -> ->.
    assert (Hl : last_item items k = None) by (apply last_item_None; exact Hn).
    rewrite Hl, String.eqb_refl. reflexivity.
  - rewrite (IH Hnd' Hin). reflexivity.
Qed.

End PyDictFacts.

Lemma keys_own_fields (type : PyClass) (name : string) :
  In name (keys (own_fields type)) <->
  exists f, In (name, AField f) (class_vars type).
Proof.
  unfold keys, own_fields. rewrite in_map_iff. split.
  - intros ([n f] & <- & Hin). apply in_flat_map in Hin.
    destruct Hin as ([n' a] & Hin & Hx). cbn [fst snd] in Hx.
    destruct a as [f' |]; [| contradiction].
    destruct Hx as [E | []]. injection E as -> ->. exists f. exact Hin.
  - intros (f & Hin). exists (name, f). split; [reflexivity |].
    apply in_flat_map. exists (name, AField f). split; [exact Hin | left; reflexivity].
Qed.

Lemma own_fields_unique (type : PyClass) (name : string) (f : Field) :
  NoDup (keys (class_vars type)) -> In (name, AField f) (class_vars type) ->
  last_item (own_fields type) name = Some f.
Proof.
  unfold own_fields, keys. destruct type as [vars]. cbn [class_vars].
  induction vars as [| [n a] vars IH]; cbn [flat_map map fst snd In];
    intros Hnd Hin; [contradiction |].
  inversion Hnd as [| ? ? Hn Hnd']; subst.
  rewrite last_item_app.
  destruct Hin as [E | Hin].
  - injection E as -> ->.
    assert (Hl : last_item
                   (flat_map (fun nv => match snd nv with
                                        | AField f => [(fst nv, f)]
                                        | AOther => []
                                        end) vars) name = None).
    { apply last_item_None. intros Hk.
      apply (keys_own_fields (mkClass vars)) in Hk. destruct Hk as (f' & Hin').
      apply Hn. apply in_map_iff. exists (name, AField f'). split; [reflexivity | exact Hin']. }
    rewrite Hl. cbn [last_item]. rewrite String.eqb_refl. reflexivity.
  - rewrite (IH Hnd' Hin). reflexivity.
Qed.

Lemma fetch_fields_iterator_cons (derived : PyClass) (bases : list PyClass) :
  fetch_fields_iterator (derived :: bases)
  = fetch_fields_iterator bases ++ own_fields derived.
Proof.
  unfold fetch_fields_iterator. cbn [rev]. rewrite flat_map_app. cbn [flat_map].
  rewrite app_nil_r. reflexivity.
Qed.

Lemma update_app {V : Type} (d items1 items2 : list (string * V)) :
  update d (items1 ++ items2) = update (update d items1) items2.
Proof. unfold update. apply fold_left_app. Qed.

Lemma fetch_fields_cons (derived : PyClass) (bases : list PyClass) :
  fetch_fields (derived :: bases) = update (fetch_fields bases) (own_fields derived).
Proof.
  unfold fetch_fields. rewrite fetch_fields_iterator_cons. apply update_app.
Qed.

(** X6.  [fetch_fields] holds every name once, and its names are exactly
    those that some class of the mro binds to a [Field] in its own body. *)
Theorem fetch_fields_names (mro : list PyClass) :
  NoDup (keys (fetch_fields mro)) /\
  forall name, In name (keys (fetch_fields mro)) <->
               exists type f, In type mro /\ In (name, AField f) (class_vars type).
Proof.
  split; [apply NoDup_keys_update; constructor |].
  intros name. unfold fetch_fields. rewrite keys_update_in. cbn [keys map In].
  unfold fetch_fields_iterator, keys. rewrite in_map_iff. split.
  - intros [[] | ([n f] & <- & Hin)]. apply in_flat_map in Hin.
    destruct Hin as (type & Ht & Hin). apply in_rev in Ht.
    assert (Hk : In n (keys (own_fields type)))
      by (apply in_map_iff; exists (n, f); split; [reflexivity | exact Hin]).
    apply keys_own_fields in Hk. destruct Hk as (f' & Hf').
    exists type, f'. split; assumption.
  - intros (type & f & Ht & Hin). right.
    assert (Hk : In name (keys (own_fields type)))
      by (apply keys_own_fields; exists f; exact Hin).
    apply in_map_iff in Hk. destruct Hk as (x & Hx & Hin').
    exists x. split; [exact Hx |]. apply in_flat_map. exists type.
    split; [apply in_rev; rewrite rev_involutive; exact Ht | exact Hin'].
Qed.

(** X7.  A field the class declares itself wins over the fields its bases
    declare under the same name: [fetch_fields] maps the name to the field
    of the class (the names of a class body are distinct, as the keys of any
    [vars] dictionary are). *)
Theorem fetch_fields_override (derived : PyClass) (bases : list PyClass)
  (name : string) (f : Field) :
  NoDup (keys (class_vars derived)) ->
  In (name, AField f) (class_vars derived) ->
  getitem (fetch_fields (derived :: bases)) name = Some f.
Proof.
  intros Hnd Hin. rewrite fetch_fields_cons, getitem_update.
  rewrite (own_fields_unique derived name f Hnd Hin). reflexivity.
Qed.

Lemma fetch_fields_override_witness :
  getitem (fetch_fields wide_mro) "x"%string = Some (ScalarField I64 0).
Proof.
  apply (fetch_fields_override Wide [Named; Point] "x"%string (ScalarField I64 0)).
  - repeat constructor; cbn; intuition discriminate.
  - left. reflexivity.
Defined.

(** X8.  A name the class does not bind to a [Field] keeps the field found
    in the rest of the mro, also when the class binds the name to something
    that is no field. *)
Theorem fetch_fields_inherited (derived : PyClass) (bases : list PyClass)
  (name : string) :
  (forall f, ~ In (name, AField f) (class_vars derived)) ->
  getitem (fetch_fields (derived :: bases)) name = getitem (fetch_fields bases) name.
Proof.
  intros Hno. rewrite fetch_fields_cons, getitem_update.
  assert (Hl : last_item (own_fields derived) name = None).
  { apply last_item_None. intros Hk. apply keys_own_fields in Hk.
    destruct Hk as (f & Hin). exact (Hno f Hin). }
  rewrite Hl. reflexivity.
Qed.

Lemma fetch_fields_inherited_witness :
  getitem (fetch_fields wide_mro) "name"%string
  = getitem (fetch_fields [Named; Point]) "name"%string /\
  getitem (fetch_fields wide_mro) "name"%string = Some (ArrayField char_t (Some 8) 8).
Proof.
  split; [| reflexivity].
  apply (fetch_fields_inherited Wide [Named; Point] "name"%string).
  intros f [H | [H | [H | []]]]; discriminate.
Defined.

(** X9.  The names found in the rest of the mro come first in
    [fetch_fields], in the order they have there; the names only the class
    itself declares as fields follow them. *)
Theorem fetch_fields_order (derived : PyClass) (bases : list PyClass) :
  exists extra,
    keys (fetch_fields (derived :: bases)) = keys (fetch_fields bases) ++ extra /\
    forall name, In name extra ->
      (exists f, In (name, AField f) (class_vars derived)) /\
      ~ In name (keys (fetch_fields bases)).
Proof.
  rewrite fetch_fields_cons.
  destruct (keys_update_prefix (fetch_fields bases) (own_fields derived))
    as (extra & E & Hex).
  exists extra. split; [exact E |]. intros name Hin.
  destruct (Hex name Hin) as [H1 H2]. split; [apply keys_own_fields; exact H1 | exact H2].
Qed.

(** X10.  [_fields_] as [StructureType.__new__] and [UnionType.__new__]
    build it holds every name once; the hint of the first class of the mro
    wins over the hints of the classes after it; and the names of the rest
    of the mro come first, in their order, before the names only the first
    class adds. *)
Theorem collect_fields_merges {H : Type} (hints : list (string * H))
  (bases : list (list (string * H))) :
  NoDup (keys (collect_fields (hints :: bases))) /\
  (forall name,
     getitem (collect_fields (hints :: bases)) name
     = match last_item hints name with
       | Some h => Some h
       | None => getitem (collect_fields bases) name
       end) /\
  exists extra,
    keys (collect_fields (hints :: bases)) = keys (collect_fields bases) ++ extra /\
    forall name, In name extra ->
      In name (keys hints) /\ ~ In name (keys (collect_fields bases)).
Proof.
  assert (E : collect_fields (hints :: bases) = update (collect_fields bases) hints).
  { unfold collect_fields. cbn [rev]. rewrite fold_left_app. reflexivity. }
  assert (Hnd : forall l : list (list (string * H)), NoDup (keys (collect_fields l))).
  { intros l. unfold collect_fields.
    assert (G : forall (ls : list (list (string * H))) d,
               NoDup (keys d) -> NoDup (keys (fold_left update ls d))).
    { induction ls as [| x ls IH]; intros d Hd; cbn [fold_left]; [exact Hd |].
      apply IH. apply NoDup_keys_update. exact Hd. }
    apply G. constructor. }
  split; [apply Hnd |]. rewrite E.
  split; [intros name; apply getitem_update | apply keys_update_prefix].
Qed.

(** ** Reading and writing through descriptors *)

Lemma same_target_refl (s : State) : same_target s s.
Proof. unfold same_target. repeat split; reflexivity. Qed.

Lemma same_target_trans (s1 s2 s3 : State) :
  same_target s1 s2 -> same_target s2 s3 -> same_target s1 s3.
Proof.
  unfold same_target. intros (A1 & A2 & A3 & A4 & A5) (B1 & B2 & B3 & B4 & B5).
  repeat split; try congruence; intros a; rewrite B3; apply A3.
Qed.

Lemma same_target_log_read (s : State) (a n : Z) : same_target s (log (ReadAt a n) s).
Proof.
  unfold same_target. cbn [config native_big memory blocks calls log].
  repeat split; try reflexivity.
  rewrite allocations_app. cbn. apply app_nil_r.
Qed.

Lemma state_read_same_target (kind : Scalar) (s : State) (a : Z) (o : ByteOrder)
  (v : Z) (s' : State) :
  state_read kind s a o = Ok (v, s') -> same_target s s'.
Proof.
  unfold state_read. destruct (scalar_compute_size kind (config s)) as [n |];
    cbn [rbind]; [| discriminate].
  unfold read_at. intros H. injection H as _ <-. apply same_target_log_read.
Qed.

(** X11.  Reading through a descriptor changes nothing of the target: after
    [read], of a scalar or of an array, the bytes, the blocks to come and
    the [allocate] calls made are what they were. *)
Theorem read_leaves_target (f : Field) (s : State) (a : Z) (o : ByteOrder)
  (v : value) (s' : State) :
  read f s a o = Ok (v, s') -> same_target s s'.
Proof.
  destruct f as [kind offset | type length offset]; cbn [read].
  - destruct (state_read kind s a o) as [[z s1] |] eqn:E; cbn [rbind]; [| discriminate].
    intros H. injection H as _ <-. exact (state_read_same_target _ _ _ _ _ _ E).
  - intros H. injection H as _ <-. apply same_target_refl.
Qed.

Lemma read_leaves_target_witness :
  same_target inline_state (log (ReadAt 0x110 4) inline_state).
Proof.
  apply (read_leaves_target (ScalarField U32 16) inline_state 0x110 NATIVE (VNumber 5)).
  reflexivity.
Defined.

Lemma scalar_size_positive (kind : Scalar) (config : PlatformConfig) (n : Z) :
  scalar_compute_size kind config = Ok n -> 1 <= n <= 8.
Proof.
  intros H. destruct (scalar_size_outcomes kind config) as [(m & Hm & Hr) | (He & _)];
    [| congruence].
  assert (m = n) by congruence. lia.
Qed.

(** X12.  A number stored through a scalar descriptor of an instance reads
    back through it unchanged, for every kind, offset and byte order,
    provided the kind has a size on the target and the number is one the
    kind holds in that size. *)
Theorem field_round_trip (kind : Scalar) (offset : Z) (b : Base) (z : Z)
  (s : State) (size : Z) :
  scalar_compute_size kind (config s) = Ok size ->
  representable kind size z ->
  exists s' s'',
    ActualField_set (ScalarField kind offset) b (VNumber z) s = Ok s' /\
    ActualField_get (ScalarField kind offset) (BaseInstance b) s'
    = Ok (GotValue (VNumber z), s'').
Proof.
  intros Hsize Hrep. pose proof (scalar_size_positive _ _ _ Hsize) as Hpos.
  unfold ActualField_set, ActualField_get. cbn [write read field_offset].
  step_write Hsize. eexists; eexists. split; [reflexivity |].
  erewrite state_read_of_peek; [cbn [rbind]; reflexivity | exact Hsize |].
  unfold representable in Hrep.
  destruct (signedness kind) eqn:Hk.
  - apply peek_write_signed; [exact Hsize | lia | port_simpl; reflexivity | exact Hk | exact Hrep].
  - apply peek_write_unsigned;
      [exact Hsize | lia | port_simpl; reflexivity | congruence | exact Hrep].
  - apply peek_write_unsigned;
      [exact Hsize | lia | port_simpl; reflexivity | congruence | exact Hrep].
Qed.

Lemma field_round_trip_witness :
  exists s' s'',
    ActualField_set (ScalarField I16 4) sample (VNumber (-2)) inline_state = Ok s' /\
    ActualField_get (ScalarField I16 4) (BaseInstance sample) s'
    = Ok (GotValue (VNumber (-2)), s'').
Proof.
  apply (field_round_trip I16 4 sample (-2) inline_state 2).
  - vm_compute. reflexivity.
  - vm_compute. split; [discriminate | reflexivity].
Defined.

Lemma ActualField_get_peek (kind : Scalar) (offset : Z) (b : Base) (s : State) :
  rmap fst (ActualField_get (ScalarField kind offset) (BaseInstance b) s)
  = rmap (fun z => GotValue (VNumber z)) (peek kind s (address b + offset) (order b)).
Proof.
  unfold ActualField_get, peek, rmap. cbn [read field_offset].
  destruct (state_read kind s (address b + offset) (order b)) as [[z s'] |];
    reflexivity.
Qed.

(** X13.  Storing through one scalar descriptor of an instance leaves what
    another descriptor of it reads unchanged when the bytes of the two
    fields do not meet. *)
Theorem field_write_frame (kind1 kind2 : Scalar) (offset1 offset2 : Z) (b : Base)
  (z : Z) (s s' : State) (size1 size2 : Z) :
  scalar_compute_size kind1 (config s) = Ok size1 ->
  scalar_compute_size kind2 (config s) = Ok size2 ->
  apart (address b + offset1) size1 (address b + offset2) size2 ->
  ActualField_set (ScalarField kind1 offset1) b (VNumber z) s = Ok s' ->
  rmap fst (ActualField_get (ScalarField kind2 offset2) (BaseInstance b) s')
  = rmap fst (ActualField_get (ScalarField kind2 offset2) (BaseInstance b) s).
Proof.
  intros H1 H2 Hap Hset.
  pose proof (scalar_size_positive _ _ _ H1) as Hp1.
  pose proof (scalar_size_positive _ _ _ H2) as Hp2.
  unfold ActualField_set in Hset. cbn [write field_offset] in Hset.
  rewrite (state_write_eq _ _ _ _ _ _ H1) in Hset. injection Hset as <-.
  rewrite !ActualField_get_peek. f_equal.
  apply (peek_write_other kind2 s _ _ _ _ size2); [exact H2 | lia |].
  unfold apart in Hap. rewrite len_to_bytes by lia. lia.
Qed.

Lemma field_write_frame_witness :
  rmap fst (ActualField_get (ScalarField U32 20) (BaseInstance sample)
              (write_at inline_state (0x100 + 16)
                 (to_bytes false 4 9)))
  = rmap fst (ActualField_get (ScalarField U32 20) (BaseInstance sample) inline_state).
Proof.
  apply (field_write_frame U32 U32 16 20 sample 9 inline_state _ 4 4).
  - vm_compute. reflexivity.
  - vm_compute. reflexivity.
  - left. vm_compute. discriminate.
  - reflexivity.
Defined.

(** ** More on closest_power_of_two *)

(** X14.  Within the range where the double arithmetic is exact,
    [closest_power_of_two n] is at least [n] and less than twice [n]. *)
Theorem closest_power_of_two_within_double (n : Z) :
  1 <= n <= LOG2_EXACT_MAX ->
  exists p, utils.closest_power_of_two n = Ok p /\ n <= p < 2 * n.
Proof.
  unfold LOG2_EXACT_MAX. intros [Hlo Hhi].
  assert (H47 : 2 ^ 47 < 2 ^ 53) by (apply Z.pow_lt_mono_r; lia).
  unfold utils.closest_power_of_two, utils.closest_power_of_two_bits.
  destruct (Z.leb_spec n 0); [lia |].
  rewrite float_of_int_exact by lia. cbn [rbind]. rewrite Z.shiftl_1_l.
  eexists; split; [reflexivity |].
  destruct (Z.eq_dec n 1) as [-> | Hne]; [cbn; lia |].
  pose proof (Z.log2_up_spec n ltac:(lia)) as [H1 H2].
  pose proof (Z.log2_up_pos n ltac:(lia)) as Hpos.
  replace (Z.log2_up n) with (Z.succ (Z.pred (Z.log2_up n))) at 2 by lia.
  rewrite Z.pow_succ_r by lia. lia.
Qed.

Lemma closest_power_of_two_within_double_witness :
  exists p, utils.closest_power_of_two 18 = Ok p /\ 18 <= p < 2 * 18.
Proof.
  apply (closest_power_of_two_within_double 18). vm_compute. split; discriminate.
Defined.

(** X15.  Within the range where the double arithmetic is exact,
    [closest_power_of_two] is monotone: a larger argument never gets a
    smaller power of two. *)
Theorem closest_power_of_two_monotone (m n : Z) :
  1 <= m -> m <= n -> n <= LOG2_EXACT_MAX ->
  exists p q, utils.closest_power_of_two m = Ok p /\
              utils.closest_power_of_two n = Ok q /\ p <= q.
Proof.
  unfold LOG2_EXACT_MAX. intros Hm Hmn Hn.
  assert (H47 : 2 ^ 47 < 2 ^ 53) by (apply Z.pow_lt_mono_r; lia).
  unfold utils.closest_power_of_two, utils.closest_power_of_two_bits.
  destruct (Z.leb_spec m 0); [lia |]. destruct (Z.leb_spec n 0); [lia |].
  rewrite !float_of_int_exact by lia. cbn [rbind]. rewrite !Z.shiftl_1_l.
  eexists; eexists. split; [reflexivity |]. split; [reflexivity |].
  apply Z.pow_le_mono_r; [lia |]. apply Z.log2_up_le_mono. exact Hmn.
Qed.

Lemma closest_power_of_two_monotone_witness :
  exists p q, utils.closest_power_of_two 17 = Ok p /\
              utils.closest_power_of_two 33 = Ok q /\ p <= q.
Proof.
  apply (closest_power_of_two_monotone 17 33); vm_compute; discriminate.
Defined.

(** ** The codec *)

Lemma Some_inj {A} (a b : A) : Some a = Some b -> a = b.
Proof. intros H. injection H as ->. reflexivity. Qed.


Lemma encode_char_bytes (c : Z) (l : list Z) :
  encode_char c = Some l -> Forall (fun b => 0 <= b < 256) l.
Proof.
  unfold encode_char.
  destruct (Z.ltb_spec c 0); [discriminate |].
  destruct (Z.ltb_spec c 0x80);
    [intros E; apply Some_inj in E; subst l; repeat (apply Forall_cons; [lia |]); apply Forall_nil |].
  destruct (Z.ltb_spec c 0x800);
    [intros E; apply Some_inj in E; subst l; repeat (apply Forall_cons; [Z.div_mod_to_equations; lia |]); apply Forall_nil |].
  destruct ((0xD800 <=? c) && (c <=? 0xDFFF)); [discriminate |].
  destruct (Z.ltb_spec c 0x10000);
    [intros E; apply Some_inj in E; subst l; repeat (apply Forall_cons; [Z.div_mod_to_equations; lia |]); apply Forall_nil |].
  destruct (Z.ltb_spec c 0x110000); [| discriminate].
  intros E; apply Some_inj in E; subst l; repeat (apply Forall_cons; [Z.div_mod_to_equations; lia |]); apply Forall_nil.
Qed.

Ltac utf8_arith :=
  repeat match goal with
    | |- context [?a =? ?b] => destruct (Z.eqb_spec a b)
    end;
  Z.div_mod_to_equations; lia.

Ltac utf8_true :=
  repeat (apply andb_true_intro; split);
  first [ apply Z.ltb_lt | apply Z.leb_le ]; utf8_arith.

Ltac utf8_false :=
  first [ apply Z.ltb_ge; utf8_arith
        | apply andb_false_iff; right; apply Z.leb_gt; utf8_arith
        | apply andb_false_iff; left; apply Z.leb_gt; utf8_arith ].

(** Settle the test of the outermost conditional. *)
Ltac head_if :=
  match goal with
  | |- (if ?c then _ else _) = _ =>
      first [ replace c with true by (symmetry; utf8_true)
            | replace c with false by (symmetry; utf8_false) ]
  end; cbv beta iota.

Lemma decode_encode_char (c : Z) (l rest : list Z) :
  encode_char c = Some l ->
  decode_utf8 (l ++ rest) = option_map (cons c) (decode_utf8 rest).
Proof.
  unfold encode_char.
  destruct (Z.ltb_spec c 0); [discriminate |].
  destruct (Z.ltb_spec c 0x80).
  { intros E; apply Some_inj in E; subst l. cbn [app decode_utf8].
    destruct (Z.ltb_spec c 0x80); [reflexivity | lia]. }
  destruct (Z.ltb_spec c 0x800).
  { intros E; apply Some_inj in E; subst l. cbn [app decode_utf8]. unfold continuation.
    repeat head_if. do 2 f_equal. Z.div_mod_to_equations; lia. }
  destruct (Z.leb_spec 0xD800 c); destruct (Z.leb_spec c 0xDFFF); cbn [andb];
    try discriminate; try lia.
  all: destruct (Z.ltb_spec c 0x10000).
  all: try (destruct (Z.ltb_spec c 0x110000); [| discriminate]).
  all: intros E; apply Some_inj in E; subst l; cbn [app decode_utf8];
    unfold continuation; repeat head_if; do 2 f_equal; Z.div_mod_to_equations; lia.
Qed.

Lemma decode_encode (text : str) (data : bytes) :
  encode text = Ok data -> decode data = Some text.
Proof.
  revert data. induction text as [| c text IH]; intros data; cbn [encode].
  - intros H. injection H as <-. reflexivity.
  - destruct (encode_char c) as [l |] eqn:Ec; [| discriminate].
    destruct (encode text) as [rest |] eqn:Er; cbn [rbind]; [| discriminate].
    intros H. injection H as <-.
    unfold decode. rewrite map_app, map_map.
    replace (map (fun x => byte.unsigned (byte.of_Z x)) l) with l.
    + rewrite (decode_encode_char c l _ Ec). fold (decode rest).
      rewrite (IH rest eq_refl). reflexivity.
    + pose proof (encode_char_bytes c l Ec) as F. clear Ec.
      induction F as [| b l Hb F IHF]; cbn [map]; [reflexivity |].
      rewrite byte.unsigned_of_Z. unfold byte.wrap. rewrite Z.mod_small by lia.
      f_equal. exact IHF.
Qed.

(** ** Bytes written and read back *)

Lemma store_outside (m : Z -> byte) (a1 : Z) (d : bytes) (a : Z) :
  ~ within a a1 (len d) -> store m a1 d a = m a.
Proof.
  unfold within, len, store. intros H.
  destruct (Z.leb_spec a1 a); destruct (Z.ltb_spec a (a1 + Z.of_nat (List.length d)));
    cbn [andb]; try reflexivity; lia.
Qed.

Lemma load_store_prefix (m : Z -> byte) (a : Z) (d1 d2 : bytes) (n : nat) :
  n = List.length d1 -> load (store m a (d1 ++ d2)) a n = d1.
Proof.
  intros ->. apply (nth_ext _ _ (store m a (d1 ++ d2) (a + Z.of_nat 0)) (m a)).
  - apply load_length.
  - intros i Hi. rewrite load_length in Hi. unfold load.
    rewrite (map_nth (fun i => store m a (d1 ++ d2) (a + Z.of_nat i))).
    rewrite seq_nth by exact Hi. cbn [Nat.add]. unfold store. rewrite length_app.
    destruct (Z.leb_spec a (a + Z.of_nat i)); [| lia].
    destruct (Z.ltb_spec (a + Z.of_nat i)
                (a + Z.of_nat (List.length d1 + List.length d2))); [| lia].
    cbn [andb]. replace (Z.to_nat (a + Z.of_nat i - a)) with i by lia.
    rewrite app_nth1 by exact Hi. apply nth_indep. exact Hi.
Qed.

Lemma load_written_text (m : Z -> byte) (a : Z) (v : str) (data : bytes) :
  encode v = Ok data ->
  decode (load (store m a (data ++ NULL_BYTE)) a (Z.to_nat (len data))) = Some v.
Proof.
  intros H. rewrite load_store_prefix by (unfold len; lia).
  apply decode_encode. exact H.
Qed.

(** ** std_string: reading *)

Lemma same_target_logged (s s1 : State) (a n : Z) :
  same_target s s1 -> same_target s (log (ReadAt a n) s1).
Proof.
  intros H. apply (same_target_trans _ _ _ H). apply same_target_log_read.
Qed.

Lemma get_value_inline (self : Base) (s : State) (l : std_string.Layout)
  (c n : Z) (text : str) :
  std_string.layout (config s) = Ok l ->
  peek uintsize_t s (address self + std_string.capacity_offset l) (order self) = Ok c ->
  peek uintsize_t s (address self + std_string.length_offset l) (order self) = Ok n ->
  c < 16 ->
  decode (load (memory s) (address self + std_string.content_offset l) (Z.to_nat n))
  = Some text ->
  exists s', std_string.get_value self s = Ok (text, s').
Proof.
  intros Hl Hcap Hlen Hc Hdec.
  destruct (std_string_layout_ok _ _ Hl) as (w & Hw & _ & _ & ->).
  unfold std_string.get_value. rewrite Hl.
  cbn [rbind std_string.content_size std_string.content_offset
       std_string.length_offset std_string.capacity_offset] in *.
  unfold uintsize_t, pointer_t in *.
  step_read Hw Hcap. step_read Hw Hlen.
  destruct (Z.ltb_spec c 16); [| lia].
  unfold read_at. cbv beta iota zeta. cbn [memory log].
  rewrite Hdec. eexists; reflexivity.
Qed.

Lemma get_value_heap (self : Base) (s : State) (l : std_string.Layout)
  (c n p : Z) (text : str) :
  std_string.layout (config s) = Ok l ->
  peek uintsize_t s (address self + std_string.capacity_offset l) (order self) = Ok c ->
  peek uintsize_t s (address self + std_string.length_offset l) (order self) = Ok n ->
  peek pointer_t s (address self + std_string.content_offset l) (order self) = Ok p ->
  16 <= c ->
  decode (load (memory s) p (Z.to_nat n)) = Some text ->
  exists s', std_string.get_value self s = Ok (text, s').
Proof.
  intros Hl Hcap Hlen Hptr Hc Hdec.
  destruct (std_string_layout_ok _ _ Hl) as (w & Hw & _ & _ & ->).
  unfold std_string.get_value. rewrite Hl.
  cbn [rbind std_string.content_size std_string.content_offset
       std_string.length_offset std_string.capacity_offset] in *.
  unfold uintsize_t, pointer_t in *.
  step_read Hw Hcap. step_read Hw Hlen.
  destruct (Z.ltb_spec c 16); [lia |].
  step_read Hw Hptr.
  unfold read_at. cbv beta iota zeta. cbn [memory log].
  rewrite Hdec. eexists; reflexivity.
Qed.

(** X16.  [std_string.get_value] only reads: when it returns a text, the
    bytes of the target, the blocks to come and the [allocate] calls made
    are what they were before the call. *)
Theorem get_value_leaves_target (self : Base) (s : State) (text : str) (s' : State) :
  std_string.get_value self s = Ok (text, s') -> same_target s s'.
Proof.
  unfold std_string.get_value.
  destruct (std_string.layout (config s)) as [l |] eqn:Hl; cbn [rbind]; [| discriminate].
  destruct (std_string_layout_ok _ _ Hl) as (w & Hw & _ & _ & ->).
  cbn [std_string.content_size std_string.content_offset
       std_string.length_offset std_string.capacity_offset].
  unfold uintsize_t, pointer_t.
  destruct (peek_defined USize s (address self + (16 + w)) (order self) w Hw)
    as (capacity & Hcap).
  step_read Hw Hcap.
  destruct (peek_defined USize s (address self + 16) (order self) w Hw)
    as (length & Hlen).
  step_read Hw Hlen.
  destruct (peek_defined USize s (address self + 0) (order self) w Hw)
    as (pointer & Hptr).
  destruct (capacity <? 16).
  - unfold read_at. cbv beta iota zeta. cbn [memory log].
    destruct (decode (load (memory s) (address self + 0) (Z.to_nat length))).
    + intros H. injection H as _ <-.
      repeat apply same_target_logged. apply same_target_refl.
    + step_read Hw Hptr. unfold read_at. cbv beta iota zeta. cbn [memory log].
      destruct (decode (load (memory s) pointer (Z.to_nat length))); [| discriminate].
      intros H. injection H as _ <-.
      repeat apply same_target_logged. apply same_target_refl.
  - step_read Hw Hptr. unfold read_at. cbv beta iota zeta. cbn [memory log].
    destruct (decode (load (memory s) pointer (Z.to_nat length))); [| discriminate].
    intros H. injection H as _ <-.
    repeat apply same_target_logged. apply same_target_refl.
Qed.

Lemma get_value_leaves_target_witness :
  same_target inline_state
    (log (ReadAt 0x100 5) (log (ReadAt 0x110 4) (log (ReadAt 0x114 4) inline_state))).
Proof.
  apply (get_value_leaves_target sample inline_state [104; 101; 108; 108; 111]).
  reflexivity.
Defined.

(** X17.  The text [std_string.set_value] wrote is the text [get_value]
    returns afterwards, in each of the four branches of [set_value].  The
    length is taken to fit a [usize] of the target and the buffer on the
    heap, the one the string has or the one it is given, to lie apart from
    the string object; a block that is given lies in the address space and
    its size is within the exact range of [closest_power_of_two]. *)
Theorem set_get_value_round_trip (self : Base) (v : str) (s : State) (data : bytes)
  (l : std_string.Layout) (capacity pointer : Z) :
  std_string.layout (config s) = Ok l ->
  encode v = Ok data ->
  peek uintsize_t s (address self + std_string.capacity_offset l) (order self) = Ok capacity ->
  peek pointer_t s (address self + std_string.content_offset l) (order self) = Ok pointer ->
  len data < 2 ^ bits (config s) ->
  (16 <= capacity -> len data <= capacity ->
   apart pointer (len data + 1) (address self) (std_string.size l)) ->
  (16 <= len data -> capacity < len data ->
   len data + 1 <= LOG2_EXACT_MAX /\
   0 <= next_block s < 2 ^ bits (config s) /\
   apart (next_block s) (len data + 1) (address self) (std_string.size l)) ->
  exists s', std_string.set_value self v s = Ok s' /\
    exists s'', std_string.get_value self s' = Ok (v, s'').
Proof.
  intros Hl Henc Hcap Hptr Hrep Hheap Hblock.
  destruct (set_value_written self v s data l capacity pointer Hl Henc Hcap Hptr)
    as (w & Hw & Hc & Hb & El & ->).
  pose proof (peek_range USize s _ _ w capacity Hw ltac:(lia) Hcap) as Hcr.
  pose proof (peek_range USize s _ _ w pointer Hw ltac:(lia) Hptr) as Hpr.
  cbn [signedness] in Hcr, Hpr.
  subst l.
  cbn [std_string.content_offset std_string.capacity_offset std_string.length_offset
       std_string.size] in *.
  unfold uintsize_t, pointer_t in *. rewrite Hb in *.
  pose proof (len_nonneg data) as Hlen.
  pose proof (pow2_bits_lower w ltac:(lia)) as H256.
  unfold written, after_length, big.
  destruct (Z.ltb_spec capacity (len data)) as [Hgrow | Hfit];
    [destruct (Z.ltb_spec (len data) 16) as [Hshort | Hlong] |
     destruct (Z.ltb_spec capacity 16) as [Hin | Hout]].
  - eexists; split; [reflexivity |].
    eapply (get_value_inline self _ _ 15 (len data)); [exact Hl | | | lia |].
    + cbn [std_string.capacity_offset]. repeat peek_step Hw. peek_here Hw.
    + cbn [std_string.length_offset]. repeat peek_step Hw. peek_here Hw.
    + cbn [std_string.content_offset memory write_at log].
      apply load_written_text. exact Henc.
  - destruct (Hblock Hlong Hgrow) as (Hex & Hnb & Hap).
    destruct (closest_power_of_two_smallest (len data + 1) ltac:(lia))
      as (size & Hsize & Hsm).
    destruct (smallest_power_bounded _ _ (8 * w) Hsm ltac:(lia) ltac:(lia)) as [Hs1 Hs2].
    rewrite Hsize. cbn [rbind]. rewrite (Z.mod_small (next_block s)) by lia.
    eexists; split; [reflexivity |].
    eapply (get_value_heap self _ _ (size - 1) (len data) (next_block s));
      [exact Hl | | | | lia |].
    + cbn [std_string.capacity_offset]. repeat peek_step Hw. peek_here Hw.
    + cbn [std_string.length_offset]. repeat peek_step Hw. peek_here Hw.
    + cbn [std_string.content_offset]. repeat peek_step Hw. peek_here Hw.
    + cbn [memory write_at log]. apply load_written_text. exact Henc.
  - eexists; split; [reflexivity |].
    eapply (get_value_inline self _ _ capacity (len data)); [exact Hl | | | lia |].
    + cbn [std_string.capacity_offset]. repeat peek_step Hw. exact Hcap.
    + cbn [std_string.length_offset]. repeat peek_step Hw. peek_here Hw.
    + cbn [std_string.content_offset memory write_at log].
      apply load_written_text. exact Henc.
  - specialize (Hheap Hout Hfit).
    eexists; split; [reflexivity |].
    eapply (get_value_heap self _ _ capacity (len data) pointer);
      [exact Hl | | | | lia |].
    + cbn [std_string.capacity_offset]. repeat peek_step Hw. exact Hcap.
    + cbn [std_string.length_offset]. repeat peek_step Hw. peek_here Hw.
    + cbn [std_string.content_offset]. repeat peek_step Hw. exact Hptr.
    + cbn [memory write_at log]. apply load_written_text. exact Henc.
Qed.

Lemma set_get_value_round_trip_witness :
  exists s', std_string.set_value sample hi heap_state = Ok s' /\
    exists s'', std_string.get_value sample s' = Ok (hi, s'').
Proof.
  apply (set_get_value_round_trip sample hi heap_state (map byte.of_Z [104; 105])
           layout32 31 0x2000).
  - reflexivity.
  - reflexivity.
  - reflexivity.
  - reflexivity.
  - vm_compute. reflexivity.
  - intros _ _. right. vm_compute. discriminate.
  - intros H. vm_compute in H. exfalso. apply H. reflexivity.
Defined.

(** X18.  [std_string.set_value] changes no byte outside the string object
    and the [L + 1] bytes of the buffer: those at the block it is given when
    the text outgrows the capacity, those at the address the string points
    to otherwise.  The length is taken to fit a [usize] of the target; a
    block that is given has an address of the target, and its size is
    within the exact range of [closest_power_of_two]. *)
Theorem set_value_frame (self : Base) (v : str) (s : State) (data : bytes)
  (l : std_string.Layout) (capacity pointer : Z) :
  std_string.layout (config s) = Ok l ->
  encode v = Ok data ->
  peek uintsize_t s (address self + std_string.capacity_offset l) (order self) = Ok capacity ->
  peek pointer_t s (address self + std_string.content_offset l) (order self) = Ok pointer ->
  len data < 2 ^ bits (config s) ->
  (16 <= len data -> capacity < len data ->
   len data + 1 <= LOG2_EXACT_MAX /\ 0 <= next_block s < 2 ^ bits (config s)) ->
  let buffer := if capacity <? len data then next_block s else pointer in
  exists s', std_string.set_value self v s = Ok s' /\
    forall a, ~ within a (address self) (std_string.size l) ->
              ~ within a buffer (len data + 1) ->
              memory s' a = memory s a.
Proof.
  intros Hl Henc Hcap Hptr Hrep Hblock.
  destruct (set_value_written self v s data l capacity pointer Hl Henc Hcap Hptr)
    as (w & Hw & Hc & Hb & -> & ->).
  cbn [std_string.size].
  rewrite Hb in *. pose proof (len_nonneg data) as Hlen.
  unfold written, after_length, big.
  destruct (Z.ltb_spec capacity (len data)) as [Hgrow | Hfit];
    [destruct (Z.ltb_spec (len data) 16) as [Hshort | Hlong] |
     destruct (Z.ltb_spec capacity 16) as [Hin | Hout]]; cbv zeta.
  - eexists; split; [reflexivity |]. intros a Hobj _.
    cbn [memory write_at log].
    rewrite !store_outside by (len_simpl; unfold within in *; lia). reflexivity.
  - destruct (Hblock Hlong Hgrow) as (Hex & Hnb).
    destruct (closest_power_of_two_defined (len data + 1) ltac:(lia)) as (size & Hsize).
    rewrite Hsize. cbn [rbind]. rewrite (Z.mod_small (next_block s)) by lia.
    eexists; split; [reflexivity |]. intros a Hobj Hbuf.
    cbn [memory write_at log allocate snd].
    rewrite !store_outside by (len_simpl; unfold within in *; lia). reflexivity.
  - eexists; split; [reflexivity |]. intros a Hobj _.
    cbn [memory write_at log].
    rewrite !store_outside by (len_simpl; unfold within in *; lia). reflexivity.
  - eexists; split; [reflexivity |]. intros a Hobj Hbuf.
    cbn [memory write_at log].
    rewrite !store_outside by (len_simpl; unfold within in *; lia). reflexivity.
Qed.

Lemma set_value_frame_witness :
  exists s', std_string.set_value sample seventeen inline_state = Ok s' /\
             memory s' 0x200 = memory inline_state 0x200.
Proof.
  destruct (set_value_frame sample seventeen inline_state
              (map byte.of_Z (repeat 97 17)) layout32 15 0x6c6c6568)
    as (s' & Hrun & Hframe).
  - reflexivity.
  - reflexivity.
  - reflexivity.
  - reflexivity.
  - vm_compute. reflexivity.
  - intros _ _. vm_compute. repeat split; discriminate.
  - exists s'. split; [exact Hrun |]. apply Hframe.
    + unfold within. vm_compute. intros [_ H]. discriminate H.
    + unfold within. vm_compute. intros [H _]. apply H. reflexivity.
Defined.

(** ** old_std_string *)

Lemma old_set_value_written (self : Base) (v : str) (s : State) (data : bytes)
  (l : old_std_string.Layout) (long_string ref_count capacity : Z) :
  old_std_string.layout (config s) = Ok l ->
  encode v = Ok data ->
  peek pointer_t s (address self + old_std_string.pointer_offset) (order self)
  = Ok long_string ->
  peek intsize_t s (long_string + old_std_string.ref_count_offset l) (order self)
  = Ok ref_count ->
  peek uintsize_t s (long_string + old_std_string.capacity_offset l) (order self)
  = Ok capacity ->
  exists w, scalar_compute_size USize (config s) = Ok w /\
            scalar_compute_size ISize (config s) = Ok w /\
            (w = 1 \/ w = 2 \/ w = 4 \/ w = 8) /\ bits (config s) = 8 * w /\
            l = old_std_string.mkLayout (3 * w) (- 3 * w) (- 2 * w) (- w) 0 /\
            old_std_string.set_value self v s
            = old_written self s w long_string ref_count capacity data.
Proof.
  intros Hl Henc Hptr Hrc Hcap.
  destruct (old_std_string_layout_ok _ _ Hl) as (w & Hw & Hi & Hc & Hb & ->).
  exists w. repeat (split; [assumption || reflexivity |]).
  cbn [old_std_string.size old_std_string.capacity_offset old_std_string.length_offset
       old_std_string.ref_count_offset old_std_string.content_offset] in *.
  unfold uintsize_t, intsize_t, pointer_t, old_std_string.pointer_offset in *.
  unfold old_std_string.set_value, old_written, old_reads, big. rewrite Hl.
  cbn [rbind old_std_string.size old_std_string.capacity_offset
       old_std_string.length_offset old_std_string.ref_count_offset
       old_std_string.content_offset].
  unfold uintsize_t, intsize_t, pointer_t, old_std_string.pointer_offset.
  step_read Hw Hptr. step_read Hi Hrc. step_read Hw Hcap.
  rewrite Henc. cbn [rbind].
  destruct (Z.ltb_spec capacity (len data)) as [Hgrow | Hfit].
  - rewrite len_app, len_NULL_BYTE.
    destruct (utils.closest_power_of_two (len data + 1 + 3 * w)) as [size' | e];
      [| reflexivity].
    cbn [rbind].
    change (allocate ?s ?n) with (next_block s, snd (allocate s n)).
    cbv beta iota.
    rewrite !next_block_log.
    step_write Hw.
    erewrite state_read_of_peek;
      [ | exact Hw
        | apply peek_write_same; [exact Hw | lia | port_simpl; reflexivity] ].
    cbn [rbind signedness].
    step_write Hw. step_write Hi. step_write Hw.
    reflexivity.
  - cbn [rbind]. step_write Hw. reflexivity.
Qed.

Lemma old_get_value_read (self : Base) (s : State) (l : old_std_string.Layout) (p n : Z) :
  old_std_string.layout (config s) = Ok l ->
  peek pointer_t s (address self + old_std_string.pointer_offset) (order self) = Ok p ->
  peek uintsize_t s (p + old_std_string.length_offset l) (order self) = Ok n ->
  exists s',
    old_std_string.get_value self s
    = Ok (load (memory s) (p + old_std_string.content_offset l) (Z.to_nat n), s') /\
    same_target s s'.
Proof.
  intros Hl Hptr Hlen.
  destruct (old_std_string_layout_ok _ _ Hl) as (w & Hw & Hi & Hc & Hb & ->).
  cbn [old_std_string.length_offset old_std_string.content_offset] in *.
  unfold uintsize_t, pointer_t, old_std_string.pointer_offset in *.
  unfold old_std_string.get_value. rewrite Hl.
  cbn [rbind old_std_string.length_offset old_std_string.content_offset].
  unfold uintsize_t, pointer_t, old_std_string.pointer_offset.
  step_read Hw Hptr. step_read Hw Hlen.
  unfold read_at. cbn [memory log].
  eexists. split; [reflexivity |].
  repeat apply same_target_logged. apply same_target_refl.
Qed.

Lemma old_get_value_gives (self : Base) (s : State) (l : old_std_string.Layout)
  (p n : Z) (data : bytes) :
  old_std_string.layout (config s) = Ok l ->
  peek pointer_t s (address self + old_std_string.pointer_offset) (order self) = Ok p ->
  peek uintsize_t s (p + old_std_string.length_offset l) (order self) = Ok n ->
  load (memory s) (p + old_std_string.content_offset l) (Z.to_nat n) = data ->
  exists s', old_std_string.get_value self s = Ok (data, s').
Proof.
  intros Hl Hptr Hlen <-.
  destruct (old_get_value_read self s l p n Hl Hptr Hlen) as (s' & Hget & _).
  exists s'. exact Hget.
Qed.

(** X19.  [old_std_string.get_value] on a known layout never raises, and
    what it returns is bytes, not a text: as many as the length field of the
    header says, read at the content the pointer names, whether they are
    UTF-8 or not; nothing of the target is changed. *)
Theorem old_get_value_raw (self : Base) (s : State) (l : old_std_string.Layout) :
  old_std_string.layout (config s) = Ok l ->
  exists p n data s',
    peek pointer_t s (address self + old_std_string.pointer_offset) (order self) = Ok p /\
    peek uintsize_t s (p + old_std_string.length_offset l) (order self) = Ok n /\
    old_std_string.get_value self s = Ok (data, s') /\
    data = fst (read_at s (p + old_std_string.content_offset l) n) /\
    len data = n /\
    same_target s s'.
Proof.
  intros Hl.
  destruct (old_std_string_layout_ok _ _ Hl) as (w & Hw & Hi & Hc & Hb & El).
  destruct (peek_defined pointer_t s (address self + old_std_string.pointer_offset)
              (order self) w Hw) as (p & Hptr).
  destruct (peek_defined uintsize_t s (p + old_std_string.length_offset l)
              (order self) w Hw) as (n & Hlen).
  destruct (old_get_value_read self s l p n Hl Hptr Hlen) as (s' & Hget & Hsame).
  pose proof (peek_range USize s _ _ w n Hw ltac:(lia) Hlen) as Hn.
  cbn [signedness] in Hn.
  exists p, n. eexists; exists s'.
  repeat (split; [eassumption || reflexivity |]).
  split; [| exact Hsame].
  unfold len. rewrite load_length. lia.
Qed.

Lemma old_get_value_raw_witness :
  exists s', old_std_string.get_value sample old_state
             = Ok (map byte.of_Z [104; 105], s') /\
             same_target old_state s'.
Proof.
  destruct (old_get_value_raw sample old_state layout32_old)
    as (p & n & data & s' & Hp & Hn & Hget & Hdata & _ & Hsame);
    [reflexivity |].
  assert (p = 0x20c) as -> by (vm_compute in Hp; congruence).
  assert (n = 2) as -> by (vm_compute in Hn; congruence).
  exists s'. split; [| exact Hsame].
  rewrite Hget, Hdata. reflexivity.
Defined.

(** X20.  When the encoded text fits the capacity in the header,
    [old_std_string.set_value] makes no [allocate] call and writes into the
    header the string has: capacity and reference count stay, the length
    field holds [L], the content holds the bytes and a null byte; and the
    pointer slot, when it lies apart from the bytes written, still names
    that header. *)
Theorem old_set_value_in_place (self : Base) (v : str) (s : State) (data : bytes)
  (l : old_std_string.Layout) (long_string ref_count capacity : Z) :
  old_std_string.layout (config s) = Ok l ->
  encode v = Ok data ->
  peek pointer_t s (address self + old_std_string.pointer_offset) (order self)
  = Ok long_string ->
  peek intsize_t s (long_string + old_std_string.ref_count_offset l) (order self)
  = Ok ref_count ->
  peek uintsize_t s (long_string + old_std_string.capacity_offset l) (order self)
  = Ok capacity ->
  len data <= capacity ->
  exists s',
    old_std_string.set_value self v s = Ok s' /\
    allocations (calls s') = allocations (calls s) /\
    peek uintsize_t s' (long_string + old_std_string.capacity_offset l) (order self)
    = Ok capacity /\
    peek intsize_t s' (long_string + old_std_string.ref_count_offset l) (order self)
    = Ok ref_count /\
    peek uintsize_t s' (long_string + old_std_string.length_offset l) (order self)
    = Ok (len data) /\
    fst (read_at s' (long_string + old_std_string.content_offset l) (len data + 1))
    = data ++ NULL_BYTE /\
    (apart (long_string + old_std_string.length_offset l)
       (len data + 1 - old_std_string.length_offset l)
       (address self) (bits (config s) / 8) ->
     peek pointer_t s' (address self + old_std_string.pointer_offset) (order self)
     = Ok long_string).
Proof.
  intros Hl Henc Hptr Hrc Hcap Hfit.
  destruct (old_set_value_written self v s data l long_string ref_count capacity
              Hl Henc Hptr Hrc Hcap) as (w & Hw & Hi & Hc & Hb & -> & ->).
  cbn [old_std_string.size old_std_string.capacity_offset old_std_string.length_offset
       old_std_string.ref_count_offset old_std_string.content_offset] in *.
  unfold uintsize_t, intsize_t, pointer_t, old_std_string.pointer_offset in *.
  rewrite Hb in *. replace (8 * w / 8) with w in * by (rewrite Z.mul_comm, Z.div_mul; lia).
  pose proof (len_nonneg data) as Hlen.
  pose proof (peek_range USize s _ _ w capacity Hw ltac:(lia) Hcap) as Hcr.
  cbn [signedness] in Hcr.
  unfold old_written, old_reads, big.
  destruct (Z.ltb_spec capacity (len data)) as [Hgrow | _]; [lia |].
  eexists. split; [reflexivity |].
  split.
  { cbn [calls write_at log]. rewrite !allocations_app. cbn.
    rewrite !app_nil_r. reflexivity. }
  split; [repeat peek_step Hw; exact Hcap |].
  split; [repeat peek_step Hi; exact Hrc |].
  split; [repeat peek_step Hw; peek_here Hw |].
  split; [apply read_write_same; len_simpl; reflexivity |].
  intros Hapart. repeat peek_step Hw. exact Hptr.
Qed.

Lemma old_set_value_in_place_witness :
  exists s',
    old_std_string.set_value sample hi old_state = Ok s' /\
    allocations (calls s') = [] /\
    peek uintsize_t s' 0x200 NATIVE = Ok 3 /\
    peek intsize_t s' 0x208 NATIVE = Ok 7 /\
    peek uintsize_t s' 0x204 NATIVE = Ok 2 /\
    peek pointer_t s' 0x100 NATIVE = Ok 0x20c.
Proof.
  destruct (old_set_value_in_place sample hi old_state (map byte.of_Z [104; 105])
              layout32_old 0x20c 7 3)
    as (s' & Hrun & Hcalls & Hcapacity & Hcount & Hlength & _ & Hpointer);
    [reflexivity | reflexivity | reflexivity | reflexivity | reflexivity
    | vm_compute; discriminate |].
  exists s'. repeat (split; [assumption |]).
  apply Hpointer. right. vm_compute. discriminate.
Defined.

(** X21.  After [old_std_string.set_value] wrote a text, [get_value] returns
    the encoded bytes of that text, whether the header was kept or a block
    was taken.  A header that is kept lies, from its length field on, apart
    from the pointer slot; a block that is taken lies in the address space,
    apart from the pointer slot, and its size is within the exact range of
    [closest_power_of_two]. *)
Theorem old_set_get_value_round_trip (self : Base) (v : str) (s : State) (data : bytes)
  (l : old_std_string.Layout) (long_string ref_count capacity : Z) :
  old_std_string.layout (config s) = Ok l ->
  encode v = Ok data ->
  peek pointer_t s (address self + old_std_string.pointer_offset) (order self)
  = Ok long_string ->
  peek intsize_t s (long_string + old_std_string.ref_count_offset l) (order self)
  = Ok ref_count ->
  peek uintsize_t s (long_string + old_std_string.capacity_offset l) (order self)
  = Ok capacity ->
  (len data <= capacity ->
   apart (long_string + old_std_string.length_offset l)
     (len data + 1 - old_std_string.length_offset l)
     (address self) (bits (config s) / 8)) ->
  (capacity < len data ->
   len data + 1 + old_std_string.size l <= LOG2_EXACT_MAX /\
   0 <= next_block s /\
   forall size',
     utils.closest_power_of_two (len data + 1 + old_std_string.size l) = Ok size' ->
     next_block s + size' <= 2 ^ bits (config s) /\
     apart (next_block s) size' (address self) (bits (config s) / 8)) ->
  exists s', old_std_string.set_value self v s = Ok s' /\
    exists s'', old_std_string.get_value self s' = Ok (data, s'').
Proof.
  intros Hl Henc Hptr Hrc Hcap Hplace Hblock.
  destruct (old_set_value_written self v s data l long_string ref_count capacity
              Hl Henc Hptr Hrc Hcap) as (w & Hw & Hi & Hc & Hb & El & ->).
  pose proof (len_nonneg data) as Hlen.
  pose proof (peek_range USize s _ _ w capacity Hw ltac:(lia) Hcap) as Hcr.
  cbn [signedness] in Hcr.
  subst l.
  cbn [old_std_string.size old_std_string.capacity_offset old_std_string.length_offset
       old_std_string.ref_count_offset old_std_string.content_offset] in *.
  unfold uintsize_t, intsize_t, pointer_t, old_std_string.pointer_offset in *.
  rewrite Hb in *. replace (8 * w / 8) with w in * by (rewrite Z.mul_comm, Z.div_mul; lia).
  unfold old_written, old_reads, big.
  destruct (Z.ltb_spec capacity (len data)) as [Hgrow | Hfit].
  - destruct (Hblock Hgrow) as (Hex & Hnb & Hsizes).
    destruct (closest_power_of_two_smallest (len data + 1 + 3 * w) ltac:(lia))
      as (size' & Hsize & Hsm).
    destruct (Hsizes size' Hsize) as (Htop & Hapart).
    destruct Hsm as (_ & Hroom & _).
    rewrite Hsize. cbn [rbind]. cbv zeta.
    rewrite (Z.mod_small (next_block s + 3 * w)) by lia.
    eexists; split; [reflexivity |].
    eapply old_get_value_gives; [exact Hl | | |].
    + unfold pointer_t, old_std_string.pointer_offset.
      repeat peek_step Hw. peek_here Hw.
    + cbn [old_std_string.length_offset]. unfold uintsize_t.
      repeat peek_step Hw. peek_here Hw.
    + cbn [old_std_string.content_offset memory write_at log].
      apply load_store_prefix. unfold len. lia.
  - specialize (Hplace Hfit).
    eexists; split; [reflexivity |].
    eapply old_get_value_gives; [exact Hl | | |].
    + unfold pointer_t, old_std_string.pointer_offset.
      repeat peek_step Hw. exact Hptr.
    + cbn [old_std_string.length_offset]. unfold uintsize_t.
      repeat peek_step Hw. peek_here Hw.
    + cbn [old_std_string.content_offset memory write_at log].
      apply load_store_prefix. unfold len. lia.
Qed.

Lemma old_set_get_value_round_trip_witness :
  exists s', old_std_string.set_value sample four old_state = Ok s' /\
    exists s'', old_std_string.get_value sample s'
                = Ok (map byte.of_Z [104; 105; 106; 107], s'').
Proof.
  apply (old_set_get_value_round_trip sample four old_state
           (map byte.of_Z [104; 105; 106; 107]) layout32_old 0x20c 7 3).
  - reflexivity.
  - reflexivity.
  - reflexivity.
  - reflexivity.
  - reflexivity.
  - intros H. vm_compute in H. exfalso. apply H. reflexivity.
  - intros _. split; [vm_compute; discriminate |]. split; [vm_compute; discriminate |].
    intros size' Hsize. vm_compute in Hsize. injection Hsize as <-.
    split; [vm_compute; discriminate | right; vm_compute; discriminate].
Defined.
